(** * swayctrl: the focus-history daemon and the window-tree selection logic

    A shallow embedding of the core of [swayctrl] (package [main]):

    - [MRU]: the doubly linked most-recently-used list [windowMRUList] with
      its index map, as a store of [mruElt] records addressed by pointers,
      and the operations [bringFront], [delete] and [all];
    - [Daemon]: the event handler [daemonHandler.Window];
    - [Tree]: [walkTree], [treeSelect], the [pick] predicate of [cmdFocus],
      the ranking of [focusExisting], [cmdAppNext] and [cmdPrev];
    - [Lock]: [lockFile] over a small model of [flock(2)]. *)

From stdpp Require Import base numbers option list gmap strings sorting.

Set Warnings "-clear-no-such-hyp".

Open Scope string_scope.
Open Scope list_scope.
Open Scope Z_scope.

(** ** Results of Go code: a value, or a panic with its message *)

Inductive res (A : Type) : Type :=
  | Ok (a : A)
  | Panic (msg : string).
Arguments Ok {A} a.
Arguments Panic {A} msg.

Definition is_ok {A} (r : res A) : bool :=
  match r with Ok _ => true | Panic _ => false end.

#[global] Instance res_ret : MRet res := λ A a, Ok a.
#[global] Instance res_bind : MBind res := λ A B f r,
  match r with
  | Ok a => f a
  | Panic msg => Panic msg
  end.

Definition nilDeref : string := "invalid memory address or nil pointer dereference".

Module MRU.

(** A [*mruElt] is an address in the store, [None] is [nil]. *)
Abbreviation ptr := positive (only parsing).

(** [type mruElt struct { prev, next *mruElt; id int64; appID string }].
    The program only stores and compares ids, so [Z] stands for [int64]. *)
Record mruElt : Type := MruElt {
  elt_prev : option ptr;
  elt_next : option ptr;
  elt_id : Z;
  elt_appID : string
}.

(** [type listWindow struct { ID int64; AppID string }] *)
Record listWindow : Type := ListWindow {
  ID : Z;
  AppID : string
}.

#[global] Instance listWindow_eq_dec : EqDecision listWindow.
Proof. solve_decision. Defined.

(** [type windowMRUList struct { head *mruElt; m map[int64]*mruElt }] *)
Record windowMRUList : Type := WindowMRUList {
  l_head : option ptr;
  l_m : gmap Z ptr
}.

(** The memory the list lives in: the allocated [mruElt] objects and the
    list header itself.  An object that is no longer reachable stays in
    the store; its address is not given out again. *)
Record state : Type := State {
  heap : gmap ptr mruElt;
  lst : windowMRUList
}.

(** [h.list.m = make(map[int64]*mruElt)] on a zero [windowMRUList]. *)
Definition newList : state :=
  State ∅ (WindowMRUList None ∅).

(** *** State and panic monad *)

Definition M (A : Type) : Type := state → res (A * state).

#[global] Instance M_ret : MRet M := λ A a s, Ok (a, s).
#[global] Instance M_bind : MBind M := λ A B f c s,
  match c s with
  | Ok (a, s') => f a s'
  | Panic msg => Panic msg
  end.

(** Reading and writing the fields of [*p]. *)
Definition load (p : ptr) : M mruElt := λ s,
  match heap s !! p with
  | Some e => Ok (e, s)
  | None => Panic nilDeref
  end.

Definition store (p : ptr) (f : mruElt → mruElt) : M unit := λ s,
  match heap s !! p with
  | Some e => Ok (tt, State (<[p := f e]> (heap s)) (lst s))
  | None => Panic nilDeref
  end.

Definition set_prev (v : option ptr) (e : mruElt) : mruElt :=
  MruElt v (elt_next e) (elt_id e) (elt_appID e).
Definition set_next (v : option ptr) (e : mruElt) : mruElt :=
  MruElt (elt_prev e) v (elt_id e) (elt_appID e).
Definition set_appID (a : string) (e : mruElt) : mruElt :=
  MruElt (elt_prev e) (elt_next e) (elt_id e) a.

Definition getPrev (p : ptr) : M (option ptr) := e ← load p; mret (elt_prev e).
Definition getNext (p : ptr) : M (option ptr) := e ← load p; mret (elt_next e).
Definition setPrev (p : ptr) (v : option ptr) : M unit := store p (set_prev v).
Definition setNext (p : ptr) (v : option ptr) : M unit := store p (set_next v).
Definition setAppID (p : ptr) (a : string) : M unit := store p (set_appID a).

(** [&mruElt{id: id}]: a fresh object, every other field zero. *)
Definition new (id : Z) : M ptr := λ s,
  let p := fresh (dom (heap s)) in
  Ok (p, State (<[p := MruElt None None id ""]> (heap s)) (lst s)).

Definition getHead : M (option ptr) := λ s, Ok (l_head (lst s), s).
Definition setHead (v : option ptr) : M unit := λ s,
  Ok (tt, State (heap s) (WindowMRUList v (l_m (lst s)))).
Definition mapGet (id : Z) : M (option ptr) := λ s, Ok (l_m (lst s) !! id, s).
Definition mapSet (id : Z) (p : ptr) : M unit := λ s,
  Ok (tt, State (heap s) (WindowMRUList (l_head (lst s)) (<[id := p]> (l_m (lst s))))).
Definition mapDelete (id : Z) : M unit := λ s,
  Ok (tt, State (heap s) (WindowMRUList (l_head (lst s)) (base.delete id (l_m (lst s))))).

(** [if q != nil { body }] *)
Definition whenSome (o : option ptr) (body : ptr → M unit) : M unit :=
  match o with
  | Some q => body q
  | None => mret tt
  end.

(** *** [func (l *windowMRUList) bringFront(id int64, appID string)] *)
Definition bringFront (id : Z) (appID : string) : M unit :=
  r ← mapGet id;
  e ← match r with
      | Some e => mret e
      | None => e ← new id; mapSet id e;; mret e
      end;
  setAppID e appID;;
  hd ← getHead;
  if decide (hd = Some e) then mret tt
  else
    ep ← getPrev e;
    whenSome ep (λ q, en ← getNext e; setNext q en);;
    en ← getNext e;
    whenSome en (λ q, ep ← getPrev e; setPrev q ep);;
    setPrev e None;;
    hd ← getHead;
    setNext e hd;;
    en ← getNext e;
    whenSome en (λ q, setPrev q (Some e));;
    setHead (Some e).

(** *** [func (l *windowMRUList) delete(id int64)] *)
Definition delete (id : Z) : M unit :=
  r ← mapGet id;
  match r with
  | None => mret tt
  | Some e =>
      mapDelete id;;
      ep ← getPrev e;
      whenSome ep (λ q, en ← getNext e; setNext q en);;
      en ← getNext e;
      whenSome en (λ q, ep ← getPrev e; setPrev q ep);;
      hd ← getHead;
      if decide (hd = Some e) then en ← getNext e; setHead en
      else mret tt
  end.

(** *** [func (l *windowMRUList) all() []listWindow]

    The loop [for e := l.head; e != nil; e = e.next] counts its iterations
    in [i] and panics once [i > 100].  [room] is [100 - i] at the top of an
    iteration, so the test after [i++] fires exactly when [room] is [0]:
    the loop body runs at most 100 times and the recursion is structural
    on [room]. *)
Fixpoint all_loop (room : nat) (h : gmap ptr mruElt) (e : option ptr)
    (nodes : list listWindow) : res (list listWindow) :=
  match e with
  | None => Ok nodes
  | Some p =>
      match room with
      | O => Panic "boom"
      | S room' =>
          match h !! p with
          | Some x =>
              all_loop room' h (elt_next x)
                (nodes ++ [ListWindow (elt_id x) (elt_appID x)])
          | None => Panic nilDeref
          end
      end
  end.

Definition all : M (list listWindow) := λ s,
  match all_loop 100 (heap s) (l_head (lst s)) [] with
  | Ok nodes => Ok (nodes, s)
  | Panic msg => Panic msg
  end.

(** *** Sequences of calls on a list *)

Inductive call : Type :=
  | BringFront (id : Z) (appID : string)
  | Delete (id : Z).

Definition do_call (c : call) : M unit :=
  match c with
  | BringFront id appID => bringFront id appID
  | Delete id => delete id
  end.

Fixpoint do_calls (cs : list call) : M unit :=
  match cs with
  | [] => mret tt
  | c :: cs' => do_call c;; do_calls cs'
  end.

(** The state after running [cs] on a new list. *)
Definition after (cs : list call) : res state :=
  match do_calls cs newList with
  | Ok (_, s) => Ok s
  | Panic msg => Panic msg
  end.

(** The snapshot taken after running [cs] on a new list. *)
Definition snapshot_after (cs : list call) : res (list listWindow) :=
  match (do_calls cs;; all) newList with
  | Ok (ws, _) => Ok ws
  | Panic msg => Panic msg
  end.

(** *** Representation invariant

    [seg h pv cur ps nx]: following [next] from [cur] visits exactly the
    objects [ps] and then reaches [nx]; the [prev] of the first object is
    [pv] and the [prev] of every other one is its predecessor. *)
Fixpoint seg (h : gmap ptr mruElt) (pv cur : option ptr) (ps : list ptr)
    (nx : option ptr) : Prop :=
  match ps with
  | [] => cur = nx
  | p :: ps' =>
      cur = Some p ∧
      ∃ e, h !! p = Some e ∧ elt_prev e = pv ∧ seg h (Some p) (elt_next e) ps' nx
  end.

Definition last_ptr (pv : option ptr) (ps : list ptr) : option ptr :=
  match last ps with
  | Some q => Some q
  | None => pv
  end.

(** The list is well formed and its objects are [ps], head first: the
    chain from [l.head] is [ps], no object is linked twice, and the index
    [l.m] holds exactly the linked objects, each under its own id. *)
Record Inv (s : state) (ps : list ptr) : Prop := mkInv {
  inv_seg : seg (heap s) None (l_head (lst s)) ps None;
  inv_nodup : NoDup ps;
  inv_index : ∀ i p, l_m (lst s) !! i = Some p ↔
                     p ∈ ps ∧ ∃ e, heap s !! p = Some e ∧ elt_id e = i
}.

(** The record [{e.id, e.appID}] of the object at [p]. *)
Definition view (h : gmap ptr mruElt) (p : ptr) : listWindow :=
  match h !! p with
  | Some e => ListWindow (elt_id e) (elt_appID e)
  | None => ListWindow 0 ""
  end.

(** The head-to-tail sequence of the list, with no bound on its length
    other than the number of allocated objects. *)
Fixpoint walk (fuel : nat) (h : gmap ptr mruElt) (e : option ptr) : list listWindow :=
  match fuel, e with
  | S fuel', Some p =>
      match h !! p with
      | Some x => ListWindow (elt_id x) (elt_appID x) :: walk fuel' h (elt_next x)
      | None => []
      end
  | _, _ => []
  end.

Definition contents (s : state) : list listWindow :=
  walk (size (heap s)) (heap s) (l_head (lst s)).

(** Two stores hold the same objects with the same [id] and [appID]. *)
Definition data (e : mruElt) : Z * string := (elt_id e, elt_appID e).
Definition same_data (h h' : gmap ptr mruElt) : Prop :=
  ∀ q, data <$> h' !! q = data <$> h !! q.

Definition same_ids (h h' : gmap ptr mruElt) : Prop :=
  ∀ q, elt_id <$> h' !! q = elt_id <$> h !! q.

(** What the calls do to the sequence of records. *)
Definition others (id : Z) (ws : list listWindow) : list listWindow :=
  filter (λ w, ID w ≠ id) ws.

Definition abs_call (c : call) (ws : list listWindow) : list listWindow :=
  match c with
  | BringFront id appID => ListWindow id appID :: others id ws
  | Delete id => others id ws
  end.

Definition abs_calls (cs : list call) : list listWindow :=
  foldl (λ ws c, abs_call c ws) [] cs.

(** [i] was passed to [bringFront] and not passed to [delete] afterwards. *)
Definition live (cs : list call) (i : Z) : Prop :=
  ∃ cs1 a cs2, cs = cs1 ++ BringFront i a :: cs2 ∧ Delete i ∉ cs2.

Definition call_id (c : call) : Z :=
  match c with
  | BringFront id _ => id
  | Delete id => id
  end.

(** The calls of [cs] that do not mention [id]. *)
Definition never_seen (id : Z) (cs : list call) : list call :=
  filter (λ c, call_id c ≠ id) cs.

(** [n] windows with the ids [1 .. n] focused one after the other. *)
Definition focus_each (n : nat) : list call :=
  (λ i, BringFront (Z.of_nat i) "term") <$> seq 1 n.

End MRU.

(** * The compositor's data, as [swayctrl] uses it *)

Module Sway.

(** [type NodeType string] with the constants of the IPC protocol. *)
Definition NodeRoot : string := "root".
Definition NodeOutput : string := "output".
Definition NodeWorkspace : string := "workspace".
Definition NodeCon : string := "con".
Definition NodeFloatingCon : string := "floating_con".

(** The fields of [sway.Node] the program reads.  [n_addr] stands for the
    address of the node object: the tree is built of [*sway.Node] and
    [cmdAppNext] compares such pointers.  [AppID] and [Visible] are
    pointers to optional values, [None] is [nil]. *)
#[local] Unset Elimination Schemes.
Inductive Node : Type := MkNode {
  n_addr : positive;
  n_ID : Z;
  n_Name : string;
  n_Type : string;
  n_AppID : option string;
  n_Visible : option bool;
  n_Focused : bool;
  n_Nodes : list Node;
  n_FloatingNodes : list Node
}.
#[local] Set Elimination Schemes.

(** [type WindowEventChange string]; the daemon handles the first two
    values. *)
Definition WindowFocus : string := "focus".
Definition WindowClose : string := "close".
Definition WindowTitle : string := "title".

(** [type WindowEvent struct { Change WindowEventChange; Container Node }] *)
Record WindowEvent : Type := MkWindowEvent {
  Change : string;
  Container : Node
}.

End Sway.

(** * The daemon *)

Module Daemon.
Import MRU Sway.

(** The [appID] that [daemonHandler.Window] passes to [bringFront]. *)
Definition focusAppID (c : Node) : string :=
  match n_AppID c with
  | Some a => if decide (a ≠ "") then a else "?"
  | None => "?"
  end.

(** [if h.verbose { log.Printf(..., h.list.all()) }] *)
Definition logList (verbose : bool) : M unit :=
  if verbose then all ≫= λ _, mret tt else mret tt.

(** [func (h *daemonHandler) Window(ctx, e sway.WindowEvent)], under
    [h.mu]. *)
Definition Window (verbose : bool) (e : WindowEvent) : M unit :=
  if decide (Change e = WindowFocus) then
    bringFront (n_ID (Container e)) (focusAppID (Container e));;
    logList verbose
  else if decide (Change e = WindowClose) then
    MRU.delete (n_ID (Container e));;
    logList verbose
  else mret tt.

(** The locked part of the query handler in [listen]: [nodes := h.list.all()]. *)
Definition handle : M (list listWindow) := all.

Fixpoint Windows (verbose : bool) (es : list WindowEvent) : M unit :=
  match es with
  | [] => mret tt
  | e :: es' => Window verbose e;; Windows verbose es'
  end.

(** The answer to a query made after the events [es], on a daemon started
    by [newDaemonHandler]. *)
Definition query_after (verbose : bool) (es : list WindowEvent) : res (list listWindow) :=
  match (Windows verbose es;; handle) newList with
  | Ok (ws, _) => Ok ws
  | Panic msg => Panic msg
  end.

(** The list after the events [es]. *)
Definition list_after (verbose : bool) (es : list WindowEvent) : res state :=
  match Windows verbose es newList with
  | Ok (_, s) => Ok s
  | Panic msg => Panic msg
  end.

(** The event [e] neither closes the window [id] nor focuses it with an
    application id of its own. *)
Definition keeps (id : Z) (e : WindowEvent) : bool :=
  bool_decide (n_ID (Container e) ≠ id)
  || (bool_decide (Change e ≠ WindowClose)
      && (bool_decide (Change e ≠ WindowFocus)
          || bool_decide (focusAppID (Container e) = "?"))).

(** The call on the list that an event leads to. *)
Definition event_call (e : WindowEvent) : option call :=
  if decide (Change e = WindowFocus) then
    Some (BringFront (n_ID (Container e)) (focusAppID (Container e)))
  else if decide (Change e = WindowClose) then
    Some (Delete (n_ID (Container e)))
  else None.

Definition calls_of (es : list WindowEvent) : list call :=
  es ≫= λ e, option_list (event_call e).

(** The call [c] neither deletes [id] nor gives it an application id. *)
Definition call_keeps (id : Z) (c : call) : Prop :=
  match c with
  | BringFront j a => j = id → a = "?"
  | Delete j => j ≠ id
  end.

Definition example_event (change : string) (id : Z) (app : option string) : WindowEvent :=
  MkWindowEvent change (MkNode (Z.to_pos id) id "" NodeCon app (Some true) true [] []).

(** A terminal is focused, then the title of window 7 changes. *)
Definition example_events : list WindowEvent :=
  [example_event WindowFocus 8 (Some "foot"); example_event WindowTitle 7 None].

End Daemon.

(** * Selecting windows in the tree *)

Module Tree.
Import Sway.

(** [func walkTree(node *sway.Node, fn func(n *sway.Node))]: [fn] acts on
    the state [S] of its closure. *)
Fixpoint walkTree {S : Type} (node : Node) (fn : Node → S → S) (s : S) : S :=
  let s := fn node s in
  let s := foldl (λ s n, walkTree n fn s) s (n_FloatingNodes node) in
  foldl (λ s n, walkTree n fn s) s (n_Nodes node).

(** [func treeSelect(node *sway.Node, fn func(n *sway.Node) bool) []*sway.Node] *)
Definition treeSelect (node : Node) (fn : Node → bool) : list Node :=
  walkTree node (λ n matches, if fn n then matches ++ [n] else matches) [].

(** The nodes of the tree in the order [walkTree] visits them. *)
Fixpoint preorder (node : Node) : list Node :=
  node :: concat (preorder <$> n_FloatingNodes node)
       ++ concat (preorder <$> n_Nodes node).

(** The closure [pick] of [cmdFocus]: [titleRE] is the compiled [-title]
    pattern ([None] when the flag is empty) as its [MatchString], [appID]
    the [-appid] flag. *)
Definition pick (titleRE : option (string → bool)) (appID : string) (n : Node) : bool :=
  if bool_decide (n_Type n = NodeCon ∨ n_Type n = NodeFloatingCon) then
    if match titleRE with
       | Some re => negb (re (n_Name n))
       | None => false
       end
    then false
    else if bool_decide (appID ≠ "")
            && match n_AppID n with
               | None => true
               | Some a => bool_decide (a ≠ appID)
               end
    then false
    else true
  else false.

(** The closure passed to [treeSelect] by [cmdAppNext]:
    [n.AppID != nil && *n.AppID == *focused.AppID]. *)
Definition sameApp (focusedAppID : string) (n : Node) : bool :=
  match n_AppID n with
  | Some a => bool_decide (a = focusedAppID)
  | None => false
  end.

(** [idToMRUIdx[w.ID] = i] for [i, w := range mruList]. *)
Definition mkIndex (mruList : list MRU.listWindow) : gmap Z nat :=
  foldl (λ m iw, <[MRU.ID iw.2 := iw.1]> m) ∅ (imap (λ i w, (i, w)) mruList).

(** The comparison closure of [focusExisting].  The two [*bool]
    dereferences panic on [nil]. *)
Definition less (idToMRUIdx : gmap Z nat) (n0 n1 : Node) : res bool :=
  match n_Visible n0, n_Visible n1 with
  | Some v0, Some v1 =>
      if negb (eqb v0 v1) then Ok v0
      else
        let ok0 := bool_decide (is_Some (idToMRUIdx !! n_ID n0)) in
        let ok1 := bool_decide (is_Some (idToMRUIdx !! n_ID n1)) in
        let i0 := default 0%nat (idToMRUIdx !! n_ID n0) in
        let i1 := default 0%nat (idToMRUIdx !! n_ID n1) in
        if negb (eqb ok0 ok1) then Ok ok0
        else if negb ok0 then Ok false
        else Ok (bool_decide (i0 < i1)%nat)
  | _, _ => Panic nilDeref
  end.

(** [slices.SortStableFunc]: a stable sort; on slices of at most 20
    elements the library runs this insertion sort, [rp] being the sorted
    prefix [data[a:i]] with its last element first.  A list has only one
    stable sorted arrangement ([TreeFacts.stable_sort_unique]), so the
    result does not depend on the algorithm.

      for i := a + 1; i < b; i++ {
        for j := i; j > a && less(data[j], data[j-1]); j-- {
          data[j], data[j-1] = data[j-1], data[j]
        }
      } *)
Fixpoint insertBack {A} (less : A → A → res bool) (x : A) (rp : list A) : res (list A) :=
  match rp with
  | [] => Ok [x]
  | y :: rp' =>
      b ← less x y;
      if b : bool then r ← insertBack less x rp'; Ok (y :: r)
      else Ok (x :: rp)
  end.

Fixpoint insertionSort {A} (less : A → A → res bool) (data rp : list A) : res (list A) :=
  match data with
  | [] => Ok (reverse rp)
  | x :: data' => rp' ← insertBack less x rp; insertionSort less data' rp'
  end.

Definition SortStableFunc {A} (x : list A) (less : A → A → res bool) : res (list A) :=
  insertionSort less x [].

(** The same sort with a comparison that cannot panic. *)
Fixpoint insertBack_pure {A} (lt : A → A → bool) (x : A) (rp : list A) : list A :=
  match rp with
  | [] => [x]
  | y :: rp' => if lt x y then y :: insertBack_pure lt x rp' else x :: rp
  end.

Fixpoint insertionSort_pure {A} (lt : A → A → bool) (data rp : list A) : list A :=
  match data with
  | [] => reverse rp
  | x :: data' => insertionSort_pure lt data' (insertBack_pure lt x rp)
  end.

(** The sorted prefix, last element first: no element ranks before one
    that follows it in [rp]. *)
Definition rsorted {A} (lt : A → A → bool) (rp : list A) : Prop :=
  StronglySorted (λ y z, lt y z = false) rp.

(** [less] on nodes that have a [Visible] flag. *)
Definition visible (n : Node) : bool := default false (n_Visible n).

Definition lessb (idToMRUIdx : gmap Z nat) (n0 n1 : Node) : bool :=
  if negb (eqb (visible n0) (visible n1)) then visible n0
  else
    match idToMRUIdx !! n_ID n0, idToMRUIdx !! n_ID n1 with
    | Some i0, Some i1 => bool_decide (i0 < i1)%nat
    | Some _, None => true
    | None, _ => false
    end.

(** Neither node ranks before the other. *)
Definition tie (idToMRUIdx : gmap Z nat) (n0 n1 : Node) : bool :=
  negb (lessb idToMRUIdx n0 n1) && negb (lessb idToMRUIdx n1 n0).

(** The matches of the ranking example: ids 10, 11 and 12, of which 12 is
    at position 0 of the MRU list and 10 at position 2. *)
Definition example_mruList : list MRU.listWindow :=
  [MRU.ListWindow 12 "foot"; MRU.ListWindow 40 "firefox"; MRU.ListWindow 10 "foot"].

Definition example_window (id : Z) (vis : bool) : Node :=
  MkNode (Z.to_pos id) id "foot" NodeCon (Some "foot") (Some vis) false [] [].

Definition example_matches : list Node :=
  [example_window 10 false; example_window 11 true; example_window 12 true].

(** A workspace with two tiled terminals, a browser between them, and a
    floating terminal; the second tiled terminal has the focus. *)
Definition example_app (id : Z) (t app : string) (focused : bool) : Node :=
  MkNode (Z.to_pos id) id app t (Some app) (Some true) focused [] [].

Definition example_tree : Node :=
  MkNode 1 1 "1" NodeWorkspace None None false
    [example_app 2 NodeCon "foot" false; example_app 3 NodeCon "firefox" false;
     example_app 4 NodeCon "foot" true]
    [example_app 5 NodeFloatingCon "foot" false].

(** A workspace that carries an application id, around a terminal. *)
Definition named_terminal : Node :=
  MkNode 2 2 "foot" NodeCon (Some "foot") (Some true) true [] [].

Definition named_workspace : Node :=
  MkNode 1 1 "1" NodeWorkspace (Some "foot") None false [named_terminal] [].

(** A workspace whose child is a split container around two terminals:
    a node of type [con] that has no [app_id] and no [visible]. *)
Definition split_container : Node :=
  MkNode 2 2 "" NodeCon None None false
    [example_app 3 NodeCon "foot" false; example_app 4 NodeCon "foot" true] [].

Definition split_tree : Node :=
  MkNode 1 1 "1" NodeWorkspace None None false [split_container] [].

(** What a command does, as far as the compositor and the user see it. *)
Inductive outcome : Type :=
  | Focused (con_id : Z)    (* ran "[con_id=N] focus" and returned *)
  | Nothing                 (* returned without running a command *)
  | Logged (msg : string)   (* the same, after [log.Println(msg)] *)
  | Fatal (msg : string)    (* [log.Fatal]: exit status 1 *)
  | Panicked (msg : string).

(** [runCommand] on ["[con_id=N] focus"] and the [log.Fatalf] on its
    error; [run] tells whether the compositor reports success. *)
Definition focusCon (run : Z → bool) (con_id : Z) : outcome :=
  if run con_id then Focused con_id
  else Fatal "Error running command".

(** [focusExisting], given the tree [root] that [GetTree] returned.
    [Nothing] is the result [false], [Focused] the result [true]. *)
Definition focusExisting (run : Z → bool) (root : Node) (idToMRUIdx : gmap Z nat)
    (pick : Node → bool) : outcome :=
  let matches := treeSelect root pick in
  if bool_decide (length matches = 0%nat) then Nothing
  else
    match SortStableFunc matches (less idToMRUIdx) with
    | Panic msg => Panicked msg
    | Ok matches =>
        match matches !! 0%nat with
        | Some n => focusCon run (n_ID n)
        | None => Panicked "index out of range"
        end
    end.

(** [slices.IndexFunc]: the first index whose element satisfies [f], or -1. *)
Fixpoint IndexFunc {A} (s : list A) (f : A → bool) : Z :=
  match s with
  | [] => -1
  | x :: s' => if f x then 0 else
                 let i := IndexFunc s' f in if i <? 0 then -1 else i + 1
  end.

(** [cmdAppNext], given the tree [root] and [focused := root.FocusedNode()]. *)
Definition cmdAppNext (run : Z → bool) (root : Node) (focused : option Node) : outcome :=
  match focused with
  | None => Fatal "No focused node"
  | Some f =>
      match n_AppID f with
      | None => Fatal "Focused node is not a container with an app ID"
      | Some a =>
          let matches := treeSelect root (sameApp a) in
          if Z.of_nat (length matches) <? 2 then Nothing
          else
            let i := IndexFunc matches (λ n, bool_decide (n_addr n = n_addr f)) in
            if i <? 0 then Fatal "Inconsistent tree?"
            else
              let j := Z.rem (i + 1) (Z.of_nat (length matches)) in
              match matches !! Z.to_nat j with
              | Some n => focusCon run (n_ID n)
              | None => Panicked "index out of range"
              end
      end
  end.

(** The loop of [cmdPrev] over [mruList]. *)
Fixpoint prevLoop (run : Z → bool) (mruList : list MRU.listWindow) (focusedID : Z) : outcome :=
  match mruList with
  | [] => Logged "No other window to focus"
  | w :: rest =>
      if bool_decide (MRU.ID w = focusedID) then prevLoop run rest focusedID
      else focusCon run (MRU.ID w)
  end.

(** [cmdPrev], given the daemon's answer [mruList] and
    [focused := root.FocusedNode()]. *)
Definition cmdPrev (run : Z → bool) (mruList : list MRU.listWindow)
    (focused : option Node) : outcome :=
  match focused with
  | None => Fatal "No focused node"
  | Some f => prevLoop run mruList (n_ID f)
  end.

End Tree.

(** * The daemon's lock file *)

Module Lock.

(** The operations of [flock(2)], as [golang.org/x/sys/unix] has them on
    Linux. *)
Definition LOCK_SH : Z := 1.
Definition LOCK_EX : Z := 2.
Definition LOCK_NB : Z := 4.
Definition LOCK_UN : Z := 8.

(** How other open file descriptions hold a lock on a file. *)
Inductive held : Type := Shared | Exclusive.

#[global] Instance held_eq_dec : EqDecision held.
Proof. solve_decision. Defined.

(** The part of the system [lockFile] depends on: which paths
    [os.OpenFile(path, os.O_CREATE, 0o644)] can open, and the locks other
    processes hold. *)
Record system : Type := System {
  can_open : string → bool;
  locks : gmap string held
}.

(** What a call of [flock] does: it returns, with or without an error, or
    it waits for the lock. *)
Inductive flock_result : Type :=
  | Acquired
  | Released
  | Errno (name : string)
  | Waits.

(** [unix.Flock(fd, how)] on a descriptor of [path], after [flock(2)]: a
    conflicting request waits, or fails with [EWOULDBLOCK] when [LOCK_NB]
    is set. *)
Definition Flock (w : system) (path : string) (how : Z) : flock_result :=
  let op := Z.land how (Z.lnot LOCK_NB) in
  let conflict (c : bool) :=
    if c then (if Z.testbit how 2 then Errno "EWOULDBLOCK" else Waits)
    else Acquired in
  if decide (op = LOCK_UN) then Released
  else if decide (op = LOCK_EX) then conflict (bool_decide (is_Some (locks w !! path)))
  else if decide (op = LOCK_SH) then conflict (bool_decide (locks w !! path = Some Exclusive))
  else Errno "EINVAL".

(** How the start of the daemon ends. *)
Inductive startup : Type :=
  | Locked (path : string)   (* the lock is held, the daemon goes on *)
  | Fatal (msg : string)     (* [log.Fatal]: exit status 1 *)
  | Blocked.                 (* waiting inside [flock] *)

(** [func lockFile(path string) *fileLock] *)
Definition lockFile (w : system) (path : string) : startup :=
  if can_open w path then
    match Flock w path (Z.lor LOCK_EX LOCK_NB) with
    | Acquired | Released => Locked path
    | Errno _ => Fatal "Lockfile locked (is another instance running?)"
    | Waits => Blocked
    end
  else Fatal "Error creating lock file:".

(** The start of [cmdDaemon]: [sockDir] is [$XDG_RUNTIME_DIR] and [Join]
    is [filepath.Join]. *)
Definition cmdDaemon_lock (Join : string → string → string) (w : system)
    (sockDir : string) : startup :=
  if decide (sockDir = "") then
    Fatal "XDG_RUNTIME_DIR must be defined (to place socket file)"
  else lockFile w (Join sockDir "swayctrl.lock").

(** [filepath.Join] on a directory without a trailing separator. *)
Definition example_Join (dir file : string) : string := dir +:+ "/" +:+ file.

Definition example_lock : string := "/run/user/1000/swayctrl.lock".

End Lock.

(** * More of the MRU list: the links that [all] does not read *)

Module Links.
Import MRU.

(** The objects reached from [e] by [next], and by [prev]. *)
Fixpoint chain (fuel : nat) (h : gmap positive mruElt) (e : option positive) : list positive :=
  match fuel, e with
  | S fuel', Some p =>
      match h !! p with
      | Some x => p :: chain fuel' h (elt_next x)
      | None => []
      end
  | _, _ => []
  end.

Fixpoint chain_back (fuel : nat) (h : gmap positive mruElt) (e : option positive) :
    list positive :=
  match fuel, e with
  | S fuel', Some p =>
      match h !! p with
      | Some x => p :: chain_back fuel' h (elt_prev x)
      | None => []
      end
  | _, _ => []
  end.

(** The objects of the list from [l.head] on, and back from the last of
    them. *)
Definition linked (s : state) : list positive :=
  chain (size (heap s)) (heap s) (l_head (lst s)).

Definition linked_back (s : state) : list positive :=
  chain_back (size (heap s)) (heap s) (last (linked s)).

(** [a] is listed before [b]. *)
Definition listed_before (a b : listWindow) (ws : list listWindow) : Prop :=
  [a; b] `sublist_of` ws.

End Links.

(** * More of the daemon *)

Module Service.
Import MRU Sway Daemon.

(** The events that [daemonHandler.Window] acts on. *)
Definition handled (e : WindowEvent) : Prop :=
  Change e = WindowFocus ∨ Change e = WindowClose.

#[global] Instance handled_dec e : Decision (handled e).
Proof. unfold handled. apply _. Defined.

(** [n] focus events, for the windows [1 .. n]. *)
Definition focus_events (n : nat) : list WindowEvent :=
  (λ i, example_event WindowFocus (Z.of_nat i) (Some "foot")) <$> seq 1 n.

End Service.

(** * More of the commands *)

Module Cli.
Import Sway Tree.

(** [sway.RunCommandReply], and what [client.RunCommand] returns: the
    replies, or an error. *)
Record RunCommandReply : Type := MkReply {
  Success : bool;
  Error : string
}.

Inductive ipcReply : Type :=
  | Results (results : list RunCommandReply)
  | IPCFailed (msg : string).

(** The error of [runCommand]: the one of the client, or
    [fmt.Errorf("command %d failed: %s", i, res.Error)]. *)
Inductive cmdError : Type :=
  | ipcError (msg : string)
  | commandFailed (i : nat) (msg : string).

(** [for i, res := range results { if !res.Success { return ... } }] from
    index [i] on. *)
Fixpoint firstFailure (i : nat) (results : list RunCommandReply) : option cmdError :=
  match results with
  | [] => None
  | res :: rest =>
      if Success res then firstFailure (S i) rest
      else Some (commandFailed i (Error res))
  end.

(** [func runCommand(ctx, client, command string) error]; [None] is [nil]. *)
Definition runCommand (reply : ipcReply) : option cmdError :=
  match reply with
  | IPCFailed msg => Some (ipcError msg)
  | Results results => firstFailure 0 results
  end.

(** [oldIDs] of [launchAndFocus]: the ids of all nodes of the tree. *)
Definition collectIDs (root : Node) : gset Z :=
  walkTree root (λ n oldIDs, {[n_ID n]} ∪ oldIDs) ∅.

(** The function that [getNewID] passes to [walkTree], acting on its
    variable [newID]:

      if _, ok := oldIDs[n.ID]; !ok {
        if newID == -1 || n.ID < newID { newID = n.ID }
      } *)
Definition newID_step (oldIDs : gset Z) (n : Node) (newID : Z) : Z :=
  if decide (n_ID n ∈ oldIDs) then newID
  else if decide (newID = -1 ∨ n_ID n < newID) then n_ID n
  else newID.

(** The closure [getNewID] of [launchAndFocus], on the tree [root] that
    [GetTree] returned. *)
Definition getNewID (oldIDs : gset Z) (root : Node) : Z :=
  walkTree root (newID_step oldIDs) (-1).

(** [1200 * time.Millisecond], in nanoseconds. *)
Definition deadline : Z := 1200 * 1000000.

(** The loop [for range ticker.C] of [launchAndFocus]: each tick comes
    with [time.Since(start)] and with the tree that [GetTree] would return.
    [None]: the loop waits for a tick after the last one of [ticks]. *)
Fixpoint poll (run : Z → bool) (oldIDs : gset Z) (ticks : list (Z * Node)) : option outcome :=
  match ticks with
  | [] => None
  | (since, root) :: ticks' =>
      if deadline <? since then
        Some (Fatal "Application couldn't be focused after launch")
      else
        let newID := getNewID oldIDs root in
        if newID <? 0 then poll run oldIDs ticks'
        else Some (focusCon run newID)
  end.

(** [func launchAndFocus(ctx, client, command, args...)], given the tree
    [root] of its first [GetTree]; [started] tells whether [cmd.Start]
    succeeded. *)
Definition launchAndFocus (run : Z → bool) (root : Node) (started : bool)
    (ticks : list (Z * Node)) : option outcome :=
  let oldIDs := collectIDs root in
  if started then poll run oldIDs ticks
  else Some (Fatal "Error launching").

(** [func cmdFocus(args []string)] after the flags are parsed: [compile]
    is [regexp.Compile] ([None] for a bad pattern), [daemon] the result of
    [getMRUListFromDaemon] (the message of its [log.Fatal], or the list),
    [root] the tree that [focusExisting] gets, and [root0], [started] and
    [ticks] what [launchAndFocus] gets. *)
Definition cmdFocus (compile : string → option (string → bool))
    (daemon : string + list MRU.listWindow) (run : Z → bool)
    (root root0 : Node) (started : bool) (ticks : list (Z * Node))
    (title appID launchCmd : string) : option outcome :=
  if decide (title = "" ∧ appID = "") then
    Some (Fatal "At least one of -title or -appid is required")
  else
    match (if decide (title ≠ "") then
             match compile title with
             | Some re => Some (Some re)
             | None => None
             end
           else Some None) with
    | None => Some (Fatal "Bad -title regex:")
    | Some titleRE =>
        match daemon with
        | inl msg => Some (Fatal msg)
        | inr mruList =>
            match focusExisting run root (mkIndex mruList) (pick titleRE appID) with
            | Nothing =>
                if decide (launchCmd = "") then Some (Fatal "No match")
                else launchAndFocus run root0 started ticks
            | o => Some o
            end
        end
    end.

(** [strings.Repeat(s, count)] for a count that is not negative. *)
Fixpoint Repeat (s : string) (count : nat) : string :=
  match count with
  | O => ""
  | S count' => s +:+ Repeat s count'
  end.

(** The closure [printNode] of [cmdTree] at nesting [depth]: the line it
    prints.  [fmtInt] is the verb [%d]; [shell] reads the field [Shell] of
    a node ([None] is [nil]). *)
Definition printNode (fmtInt : Z → string) (shell : Node → option string)
    (depth : nat) (n : Node) : string :=
  Repeat "  " depth
  +:+ ("[" +:+ fmtInt (n_ID n) +:+ ":" +:+ n_Type n +:+ "]")
  +:+ match n_AppID n with
      | Some a => if decide (a ≠ "") then " [app_id:" +:+ a +:+ "]" else ""
      | None => ""
      end
  +:+ match shell n with
      | Some sh => if decide (sh ≠ "xdg_shell") then " [shell:" +:+ sh +:+ "]" else ""
      | None => ""
      end
  +:+ (if decide (n_Name n ≠ "") then " | " +:+ n_Name n else "").

(** The closure [walk] of [cmdTree]; the state is the variable [depth] and
    the lines printed so far. *)
Fixpoint treeWalk (fmtInt : Z → string) (shell : Node → option string)
    (node : Node) (st : nat * list string) : nat * list string :=
  let st := (S (fst st), snd st ++ [printNode fmtInt shell (fst st) node]) in
  let st := foldl (λ st n, treeWalk fmtInt shell n st) st (n_FloatingNodes node) in
  let st := foldl (λ st n, treeWalk fmtInt shell n st) st (n_Nodes node) in
  (pred (fst st), snd st).

(** The lines that [cmdTree] prints for the tree [root]. *)
Definition cmdTree (fmtInt : Z → string) (shell : Node → option string)
    (root : Node) : list string :=
  snd (treeWalk fmtInt shell root (0%nat, [])).

(** The nodes of a tree in the order of [walkTree], each with its depth. *)
Fixpoint levels (d : nat) (node : Node) : list (nat * Node) :=
  (d, node) :: concat (levels (S d) <$> n_FloatingNodes node)
            ++ concat (levels (S d) <$> n_Nodes node).

(** A match has no [Visible] flag. *)
Definition noVisible (n : Node) : Prop := n_Visible n = None.

#[global] Instance noVisible_dec n : Decision (noVisible n).
Proof. unfold noVisible. apply _. Defined.

(** The example tree after an editor has opened its window 6, and two
    ticks of the poll: the window is there at the second. *)
Definition launched_tree : Node :=
  MkNode 1 1 "1" NodeWorkspace None None false
    [example_app 2 NodeCon "foot" false; example_app 3 NodeCon "firefox" false;
     example_app 4 NodeCon "foot" true; example_app 6 NodeCon "emacs" false]
    [example_app 5 NodeFloatingCon "foot" false].

Definition example_ticks : list (Z * Node) :=
  [(50 * 1000000, example_tree); (100 * 1000000, launched_tree)].

(** Replies to three commands, of which the last two failed. *)
Definition example_replies : list RunCommandReply :=
  [MkReply true ""; MkReply false "bad"; MkReply false "worse"].

(** Window 7 is focused, its title changes, then window 8 is focused. *)
Definition example_focus_events : list WindowEvent :=
  [Daemon.example_event WindowFocus 7 (Some "vim");
   Daemon.example_event WindowTitle 7 None;
   Daemon.example_event WindowFocus 8 (Some "foot")].

End Cli.

(** * Facts about the MRU list *)

Module MRUFacts.
Import MRU.

Section bind.
Context {A : Type}.
Implicit Types (k : unit → M A) (s : state).

Lemma bind_getPrev p e (k : option ptr → M A) s :
  heap s !! p = Some e → (getPrev p ≫= k) s = k (elt_prev e) s.
Proof. intros H. unfold getPrev, load, mbind, M_bind, mret, M_ret. by rewrite H. Qed.

Lemma bind_getNext p e (k : option ptr → M A) s :
  heap s !! p = Some e → (getNext p ≫= k) s = k (elt_next e) s.
Proof. intros H. unfold getNext, load, mbind, M_bind, mret, M_ret. by rewrite H. Qed.

Lemma bind_store p f e k s :
  heap s !! p = Some e →
  (store p f ≫= k) s = k tt (State (<[p := f e]> (heap s)) (lst s)).
Proof. intros H. unfold store, mbind, M_bind. by rewrite H. Qed.

Lemma bind_getHead (k : option ptr → M A) s :
  (getHead ≫= k) s = k (l_head (lst s)) s.
Proof. done. Qed.

Lemma bind_setHead v k s :
  (setHead v ≫= k) s = k tt (State (heap s) (WindowMRUList v (l_m (lst s)))).
Proof. done. Qed.

Lemma bind_ret {B} (b : B) (k : B → M A) s : (mret b ≫= k) s = k b s.
Proof. done. Qed.

Lemma bind_mapGet i (k : option ptr → M A) s :
  (mapGet i ≫= k) s = k (l_m (lst s) !! i) s.
Proof. done. Qed.

Lemma bind_mapSet i p k s :
  (mapSet i p ≫= k) s
  = k tt (State (heap s) (WindowMRUList (l_head (lst s)) (<[i := p]> (l_m (lst s))))).
Proof. done. Qed.

Lemma bind_mapDelete i k s :
  (mapDelete i ≫= k) s
  = k tt (State (heap s) (WindowMRUList (l_head (lst s)) (base.delete i (l_m (lst s))))).
Proof. done. Qed.

Lemma bind_new i (k : ptr → M A) s :
  (new i ≫= k) s
  = k (fresh (dom (heap s)))
      (State (<[fresh (dom (heap s)) := MruElt None None i ""]> (heap s)) (lst s)).
Proof. done. Qed.

Lemma bind_Ok {B} (c : M B) (k : B → M A) s r :
  (c ≫= k) s = Ok r ↔ ∃ b s1, c s = Ok (b, s1) ∧ k b s1 = Ok r.
Proof.
  unfold mbind, M_bind. destruct (c s) as [[b s1]|msg]; [|naive_solver].
  split; [by eauto|]. by intros (? & ? & [= <- <-] & ?).
Qed.

Lemma bind_assoc {B C} (c : M B) (f : B → M C) (k : C → M A) s :
  ((c ≫= f) ≫= k) s = (c ≫= λ b, f b ≫= k) s.
Proof. unfold mbind, M_bind. by destruct (c s) as [[b s']|msg]. Qed.
End bind.

Lemma seg_frame h pv cur ps nx q e :
  q ∉ ps → seg h pv cur ps nx → seg (<[q := e]> h) pv cur ps nx.
Proof.
  revert pv cur. induction ps as [|p ps IH]; intros pv cur Hq; simpl; [done|].
  apply not_elem_of_cons in Hq as [Hne Hq].
  intros [-> (x & Hx & Hpv & Hrest)]. split; [done|].
  exists x. rewrite lookup_insert_ne by done. eauto.
Qed.

Lemma seg_lookup h pv cur ps nx p :
  seg h pv cur ps nx → p ∈ ps → is_Some (h !! p).
Proof.
  revert pv cur. induction ps as [|q ps IH]; intros pv cur; simpl.
  - intros _ Hp. by apply elem_of_nil in Hp.
  - intros [-> (x & Hx & Hpv & Hrest)] [->|Hp]%elem_of_cons; eauto.
Qed.

Lemma seg_app h pv cur l1 l2 nx :
  seg h pv cur (l1 ++ l2) nx ↔
  ∃ mid, seg h pv cur l1 mid ∧ seg h (last_ptr pv l1) mid l2 nx.
Proof.
  revert pv cur. induction l1 as [|p l1 IH]; intros pv cur; simpl.
  - unfold last_ptr; simpl. split.
    + intros H. by exists cur.
    + by intros (mid & -> & H).
  - assert (Hlast : last_ptr pv (p :: l1) = last_ptr (Some p) l1).
    { unfold last_ptr. destruct l1 as [|p0 l1']; [done|]. rewrite last_cons_cons.
      destruct (last (p0 :: l1')) eqn:E; [done|]. by apply last_None in E. }
    rewrite Hlast. split.
    + intros [-> (x & Hx & Hpv & Hrest)].
      apply IH in Hrest as (mid & H1 & H2). exists mid. split; [|done].
      split; [done|]. eauto.
    + intros (mid & [-> (x & Hx & Hpv & H1)] & H2). split; [done|].
      exists x. split_and!; [done..|]. apply IH. eauto.
Qed.

Lemma seg_set_prev_first h pv cur q ps nx e v :
  q ∉ ps → h !! q = Some e → seg h pv cur (q :: ps) nx →
  seg (<[q := set_prev v e]> h) v cur (q :: ps) nx.
Proof.
  intros Hq He [-> (x & Hx & Hpv & Hrest)].
  assert (x = e) as -> by congruence.
  split; [done|]. exists (set_prev v e). rewrite lookup_insert_eq.
  split_and!; [done..|]. simpl. by apply seg_frame.
Qed.

Lemma seg_set_next_last h pv cur ps q nx e v :
  q ∉ ps → h !! q = Some e → seg h pv cur (ps ++ [q]) nx →
  seg (<[q := set_next v e]> h) pv cur (ps ++ [q]) v.
Proof.
  revert pv cur. induction ps as [|p ps IH]; intros pv cur Hq He; simpl.
  - intros [-> (x & Hx & Hpv & Hrest)].
    assert (x = e) as -> by congruence. split; [done|].
    exists (set_next v e). by rewrite lookup_insert_eq.
  - apply not_elem_of_cons in Hq as [Hne Hq].
    intros [-> (x & Hx & Hpv & Hrest)]. split; [done|].
    exists x. rewrite lookup_insert_ne by done. eauto.
Qed.

Lemma seg_set_appID h pv cur ps nx q e a :
  h !! q = Some e → seg h pv cur ps nx →
  seg (<[q := set_appID a e]> h) pv cur ps nx.
Proof.
  intros He. revert pv cur. induction ps as [|p ps IH]; intros pv cur; simpl; [done|].
  intros [-> (x & Hx & Hpv & Hrest)]. split; [done|].
  destruct (decide (q = p)) as [->|Hne].
  - assert (x = e) as -> by congruence.
    exists (set_appID a e). rewrite lookup_insert_eq.
    split_and!; [done..|]. simpl. eauto.
  - exists x. rewrite lookup_insert_ne by done. eauto.
Qed.

Lemma same_data_refl h : same_data h h.
Proof. by intros q. Qed.

Lemma same_data_trans h1 h2 h3 :
  same_data h1 h2 → same_data h2 h3 → same_data h1 h3.
Proof. intros H1 H2 q. by rewrite H2, H1. Qed.

Lemma same_data_insert h q e f :
  h !! q = Some e → data (f e) = data e → same_data h (<[q := f e]> h).
Proof.
  intros He Hf r. destruct (decide (q = r)) as [->|Hne].
  - by rewrite lookup_insert_eq, He; simpl; rewrite Hf.
  - by rewrite lookup_insert_ne.
Qed.

Lemma same_data_view h h' q : same_data h h' → view h' q = view h q.
Proof.
  intros H. specialize (H q). unfold view.
  destruct (h' !! q) as [[]|], (h !! q) as [[]|]; by simplify_eq/=.
Qed.

Lemma same_data_id h h' q i :
  same_data h h' →
  (∃ e, h' !! q = Some e ∧ elt_id e = i) ↔ (∃ e, h !! q = Some e ∧ elt_id e = i).
Proof.
  intros H. specialize (H q).
  destruct (h' !! q) as [[]|], (h !! q) as [[]|]; simplify_eq/=;
    split; intros (? & ? & ?); simplify_eq/=; eauto.
Qed.

(** ** Unlinking: the two guarded assignments shared by [bringFront] and
    [delete] *)

#[local] Arguments seg : simpl never.

Section unlink.
Context {A : Type} (k : unit → M A).

(** [if e.prev != nil { e.prev.next = e.next }] *)
Lemma unlink_prev h l p e l1 l2 cur :
  NoDup (l1 ++ p :: l2) →
  h !! p = Some e →
  elt_prev e = last_ptr None l1 →
  seg h None cur l1 (Some p) →
  seg h (Some p) (elt_next e) l2 None →
  ∃ h',
    (getPrev p ≫= λ ep,
       whenSome ep (λ q, getNext p ≫= λ en, setNext q en) ≫= k) (State h l)
    = k tt (State h' l) ∧
    h' !! p = Some e ∧
    seg h' None (match l1 with [] => elt_next e | _ => cur end) l1 (elt_next e) ∧
    seg h' (Some p) (elt_next e) l2 None ∧
    same_data h h'.
Proof.
  intros Hnd He Hpv H1 H2.
  rewrite (bind_getPrev p e) by done. rewrite Hpv.
  destruct l1 as [|q l1' _] using rev_ind.
  - exists h. split_and!; [done..|]. apply same_data_refl.
  - unfold last_ptr. rewrite last_snoc. simpl.
    apply NoDup_app in Hnd as (Hnd1 & Hdisj & Hnd2).
    apply NoDup_app in Hnd1 as (_ & Hq & _).
    assert (Hq1 : q ∉ l1') by (intros ?; eapply Hq; [done|set_solver]).
    assert (Hq2 : q ∉ p :: l2) by (apply Hdisj; set_solver).
    apply not_elem_of_cons in Hq2 as [Hqp Hq2].
    destruct (seg_lookup _ _ _ _ _ q H1) as [x Hx]; [set_solver|].
    rewrite bind_assoc, (bind_getNext p e) by done. unfold setNext.
    rewrite (bind_store q _ x) by done. simpl.
    exists (<[q := set_next (elt_next e) x]> h). split_and!.
    + done.
    + by rewrite lookup_insert_ne.
    + assert (Hm : match l1' ++ [q] with [] => elt_next e | _ :: _ => cur end = cur)
        by (by destruct l1').
      rewrite Hm. by eapply seg_set_next_last.
    + by apply seg_frame.
    + by apply same_data_insert.
Qed.

(** [if e.next != nil { e.next.prev = e.prev }] *)
Lemma unlink_next h l p e l1 l2 cur :
  NoDup (l1 ++ p :: l2) →
  h !! p = Some e →
  seg h None cur l1 (elt_next e) →
  seg h (Some p) (elt_next e) l2 None →
  ∃ h',
    (getNext p ≫= λ en,
       whenSome en (λ q, getPrev p ≫= λ ep, setPrev q ep) ≫= k) (State h l)
    = k tt (State h' l) ∧
    h' !! p = Some e ∧
    seg h' None cur l1 (elt_next e) ∧
    seg h' (elt_prev e) (elt_next e) l2 None ∧
    same_data h h'.
Proof.
  intros Hnd He H1 H2.
  rewrite (bind_getNext p e) by done.
  destruct l2 as [|r l2'].
  - unfold seg in H2. rewrite H2 in H1 |- *. simpl. exists h.
    split_and!; [done..|apply same_data_refl].
  - pose proof H2 as [Hnx (x & Hx & _ & _)]. rewrite Hnx in H1, H2 |- *. simpl.
    apply NoDup_app in Hnd as (Hnd1 & Hdisj & Hnd2).
    apply NoDup_cons in Hnd2 as [Hp2 Hnd2].
    apply NoDup_cons in Hnd2 as [Hr2 Hnd2].
    assert (Hrp : r ≠ p) by set_solver.
    assert (Hr1 : r ∉ l1) by (intros ?; eapply Hdisj; [done|set_solver]).
    rewrite bind_assoc, (bind_getPrev p e) by done. unfold setPrev.
    rewrite (bind_store r _ x) by done. simpl.
    exists (<[r := set_prev (elt_prev e) x]> h). split_and!.
    + done.
    + by rewrite lookup_insert_ne.
    + by apply seg_frame.
    + by apply (seg_set_prev_first h (Some p) (Some r) r l2' None x).
    + by apply same_data_insert.
Qed.

End unlink.

(** Both assignments, on an object linked between [l1] and [l2]. *)
Lemma unlink_linked {A} (k : unit → M A) h l p e l1 l2 cur :
  NoDup (l1 ++ p :: l2) →
  h !! p = Some e →
  seg h None cur (l1 ++ p :: l2) None →
  ∃ h',
    (getPrev p ≫= λ ep,
       whenSome ep (λ q, getNext p ≫= λ en, setNext q en) ≫= λ _,
         getNext p ≫= λ en,
           whenSome en (λ q, getPrev p ≫= λ ep, setPrev q ep) ≫= k) (State h l)
    = k tt (State h' l) ∧
    h' !! p = Some e ∧
    seg h' None (match l1 with [] => elt_next e | _ => cur end) (l1 ++ l2) None ∧
    same_data h h'.
Proof.
  intros Hnd He Hseg.
  apply seg_app in Hseg as (mid & H1 & [-> (x & Hx & Hpv & H2)]).
  assert (x = e) as -> by congruence.
  destruct (unlink_prev (λ _, getNext p ≫= λ en,
              whenSome en (λ q, getPrev p ≫= λ ep, setPrev q ep) ≫= k)
              h l p e l1 l2 cur) as (h1 & -> & He1 & H11 & H12 & Hd1);
    [done..|].
  destruct (unlink_next k h1 l p e l1 l2
              (match l1 with [] => elt_next e | _ => cur end))
    as (h2 & -> & He2 & H21 & H22 & Hd2); [done..|].
  exists h2. split_and!; [done..| |by eapply same_data_trans].
  apply seg_app. exists (elt_next e). split; [done|]. by rewrite <-Hpv.
Qed.

(** The tail of [bringFront]: link [p] in front of the chain [xs]. *)
Lemma relink h l p e xs :
  NoDup xs → p ∉ xs → h !! p = Some e →
  seg h None (l_head l) xs None →
  ∃ h',
    (setPrev p None ≫= λ _, getHead ≫= λ hd, setNext p hd ≫= λ _,
       getNext p ≫= λ en,
         whenSome en (λ q, setPrev q (Some p)) ≫= λ _, setHead (Some p))
      (State h l)
    = Ok (tt, State h' (WindowMRUList (Some p) (l_m l))) ∧
    seg h' None (Some p) (p :: xs) None ∧
    same_data h h'.
Proof.
  intros Hnd Hp He Hseg. destruct l as [hd m]. simpl in *.
  unfold setPrev, setNext.
  rewrite (bind_store p _ e) by done.
  rewrite bind_getHead. simpl.
  rewrite (bind_store p _ (set_prev None e)) by (simpl; apply lookup_insert_eq).
  simpl. rewrite insert_insert_eq.
  set (e' := set_next hd (set_prev None e)).
  rewrite (bind_getNext p e') by (simpl; apply lookup_insert_eq).
  assert (Hd1 : same_data h (<[p := e']> h)).
  { by apply (same_data_insert h p e (λ x, set_next hd (set_prev None x))). }
  assert (He' : elt_next e' = hd ∧ elt_prev e' = None) by done.
  destruct He' as [Hn' Hp']. rewrite Hn'. clearbody e'.
  destruct xs as [|r xs'].
  - unfold seg in Hseg. subst hd. simpl.
    exists (<[p := e']> h). split_and!; [done| |done].
    split; [done|]. exists e'. rewrite lookup_insert_eq. by split_and!.
  - pose proof Hseg as [-> (x & Hx & _ & _)].
    apply not_elem_of_cons in Hp as [Hpr Hp].
    apply NoDup_cons in Hnd as [Hr Hnd].
    assert (Hx' : <[p := e']> h !! r = Some x) by (by rewrite lookup_insert_ne).
    simpl. rewrite (bind_store r _ x) by done. simpl.
    eexists. split_and!; [done| |].
    + split; [done|]. exists e'. simpl. rewrite lookup_insert_ne, lookup_insert_eq by done.
      split_and!; [done..|]. rewrite Hn'.
      apply (seg_set_prev_first _ None (Some r) r xs' None x); [done..|].
      apply seg_frame; [by apply not_elem_of_cons|done].
    + simpl. eapply same_data_trans; [done|]. by apply same_data_insert.
Qed.

(** ** Consequences of the invariant *)

Lemma Inv_lookup s ps p : Inv s ps → p ∈ ps → is_Some (heap s !! p).
Proof. intros [Hseg _ _] Hp. by eapply seg_lookup. Qed.

Lemma Inv_index_of s ps p e :
  Inv s ps → p ∈ ps → heap s !! p = Some e → l_m (lst s) !! elt_id e = Some p.
Proof. intros [_ _ Hidx] Hp He. apply Hidx. eauto. Qed.

Lemma Inv_head s ps : Inv s ps → l_head (lst s) = head ps.
Proof. intros [Hseg _ _]. destruct ps; [done|]. by destruct Hseg. Qed.

(** Ids are unique along the chain. *)
Lemma Inv_other_id s ps p q i :
  Inv s ps → l_m (lst s) !! i = Some p → q ∈ ps → q ≠ p → ID (view (heap s) q) ≠ i.
Proof.
  intros HI Hm Hq Hne Hid. destruct (Inv_lookup s ps q HI Hq) as [x Hx].
  pose proof (Inv_index_of s ps q x HI Hq Hx) as Hmq.
  unfold view in Hid. rewrite Hx in Hid. simpl in Hid. congruence.
Qed.

Lemma others_fmap_view (h : gmap ptr mruElt) (i : Z) (qs : list ptr) :
  (∀ q, q ∈ qs → ID (view h q) ≠ i) → others i (view h <$> qs) = view h <$> qs.
Proof.
  intros H. unfold others. induction qs as [|q qs IH]; [done|].
  rewrite fmap_cons, filter_cons_True by (apply H; left).
  rewrite IH; [done|]. intros r Hr. apply H. by right.
Qed.

Lemma others_split (h : gmap ptr mruElt) (i : Z) (l1 l2 : list ptr) (p : ptr) :
  ID (view h p) = i →
  (∀ q, q ∈ l1 ++ l2 → ID (view h q) ≠ i) →
  others i (view h <$> (l1 ++ p :: l2)) = view h <$> (l1 ++ l2).
Proof.
  intros Hp H. rewrite !fmap_app, fmap_cons. unfold others.
  rewrite filter_app, filter_cons_False by (by intros ?).
  fold (others i (view h <$> l1)). fold (others i (view h <$> l2)).
  rewrite !others_fmap_view; [done|..]; intros q Hq; apply H; set_solver.
Qed.

Lemma fmap_view_ext (h h' : gmap ptr mruElt) (qs : list ptr) :
  (∀ q, q ∈ qs → view h' q = view h q) → view h' <$> qs = view h <$> qs.
Proof. intros H. apply list_fmap_ext. intros k q Hq. apply H. by eapply list_elem_of_lookup_2. Qed.

Lemma same_data_ids h h' : same_data h h' → same_ids h h'.
Proof.
  intros H q. specialize (H q).
  destruct (h' !! q) as [[]|], (h !! q) as [[]|]; by simplify_eq/=.
Qed.

Lemma same_ids_trans h1 h2 h3 : same_ids h1 h2 → same_ids h2 h3 → same_ids h1 h3.
Proof. intros H1 H2 q. by rewrite H2, H1. Qed.

Lemma same_ids_set_appID h p e a :
  h !! p = Some e → same_ids h (<[p := set_appID a e]> h).
Proof.
  intros He q. destruct (decide (p = q)) as [->|Hne].
  - by rewrite lookup_insert_eq, He.
  - by rewrite lookup_insert_ne.
Qed.

Lemma same_ids_id h h' q i :
  same_ids h h' →
  (∃ e, h' !! q = Some e ∧ elt_id e = i) ↔ (∃ e, h !! q = Some e ∧ elt_id e = i).
Proof.
  intros H. specialize (H q).
  destruct (h' !! q) as [[]|], (h !! q) as [[]|]; simplify_eq/=;
    split; intros (? & ? & ?); simplify_eq/=; eauto.
Qed.

Lemma view_insert_ne h p q e : p ≠ q → view (<[p := e]> h) q = view h q.
Proof. intros Hne. unfold view. by rewrite lookup_insert_ne. Qed.

Lemma view_lookup h p e :
  h !! p = Some e → view h p = ListWindow (elt_id e) (elt_appID e).
Proof. intros He. unfold view. by rewrite He. Qed.

(** ** [bringFront] on an id the index knows *)

Lemma bringFront_known h l id a p l1 l2 :
  Inv (State h l) (l1 ++ p :: l2) →
  l_m l !! id = Some p →
  ∃ h',
    bringFront id a (State h l) = Ok (tt, State h' (WindowMRUList (Some p) (l_m l))) ∧
    Inv (State h' (WindowMRUList (Some p) (l_m l))) (p :: l1 ++ l2) ∧
    view h' p = ListWindow id a ∧
    (∀ q, q ≠ p → view h' q = view h q).
Proof.
  intros HI Hm. pose proof HI as [Hseg Hnd Hidx]. simpl in *.
  destruct (proj1 (Hidx id p) Hm) as [_ (e & He & Hid)].
  unfold bringFront. rewrite bind_mapGet. simpl. rewrite Hm, bind_ret.
  unfold setAppID. rewrite (bind_store p _ e) by done.
  rewrite bind_getHead. simpl.
  set (e1 := set_appID a e). set (h1 := <[p := e1]> h).
  assert (He1 : h1 !! p = Some e1) by apply lookup_insert_eq.
  assert (Hseg1 : seg h1 None (l_head l) (l1 ++ p :: l2) None) by (by apply seg_set_appID).
  assert (Hids1 : same_ids h h1) by (by apply same_ids_set_appID).
  assert (Hv1 : view h1 p = ListWindow id a) by (by rewrite (view_lookup h1 p e1), <-Hid).
  assert (Hvo : ∀ q, q ≠ p → view h1 q = view h q)
    by (by intros q Hq; apply view_insert_ne).
  assert (Hmem : ∀ q, q ∈ p :: l1 ++ l2 ↔ q ∈ l1 ++ p :: l2) by set_solver.
  destruct l1 as [|q0 l1'].
  - (* [l.head == e]: only the appID changes *)
    destruct Hseg1 as [Hhd _]. pose proof (Inv_head _ _ HI) as Hhd'. simpl in Hhd'.
    rewrite Hhd'. rewrite decide_True by done.
    exists h1. destruct l as [hd m]. simpl in *. subst hd.
    split_and!; [done| |done..].
    split; simpl.
    + by apply seg_set_appID.
    + done.
    + intros i q. rewrite Hidx. by rewrite (same_ids_id h h1).
  - pose proof (Inv_head _ _ HI) as Hhd'. simpl in Hhd'.
    assert (Hq0 : q0 ≠ p).
    { intros ->. apply NoDup_cons in Hnd as [Hn _]. apply Hn. set_solver. }
    rewrite decide_False by (rewrite Hhd'; congruence).
    destruct (unlink_linked
                (λ _, setPrev p None ≫= λ _, getHead ≫= λ hd, setNext p hd ≫= λ _,
                   getNext p ≫= λ en,
                     whenSome en (λ q, setPrev q (Some p)) ≫= λ _, setHead (Some p))
                h1 l p e1 (q0 :: l1') l2 (l_head l))
      as (h2 & -> & He2 & Hseg2 & Hd2); [done..|].
    assert (Hnd2 : NoDup (p :: (q0 :: l1') ++ l2)).
    { eapply NoDup_Permutation_proper; [|exact Hnd]. apply Permutation_middle. }
    apply NoDup_cons in Hnd2 as [Hp2 Hnd2].
    destruct (relink h2 l p e1 ((q0 :: l1') ++ l2)) as (h3 & -> & Hseg3 & Hd3);
      [done..|].
    exists h3. split_and!.
    + done.
    + split; simpl.
      * done.
      * by apply NoDup_cons.
      * intros i q. rewrite Hidx, Hmem.
        rewrite (same_ids_id h h3); [done|].
        eapply same_ids_trans; [done|]. apply same_data_ids.
        by eapply same_data_trans.
    + rewrite <-Hv1. apply same_data_view. by eapply same_data_trans.
    + intros q Hq. rewrite <-Hvo by done. apply same_data_view.
      by eapply same_data_trans.
Qed.

(** ** [bringFront] on an id the index does not know *)

Lemma Inv_fresh h l ps : Inv (State h l) ps → fresh (dom h) ∉ ps.
Proof.
  intros HI Hp. destruct (Inv_lookup _ _ _ HI Hp) as [x Hx]. simpl in Hx.
  apply (is_fresh (dom h)). apply elem_of_dom. eauto.
Qed.

Lemma bringFront_new h l id a ps :
  Inv (State h l) ps →
  l_m l !! id = None →
  ∃ h',
    bringFront id a (State h l)
    = Ok (tt, State h' (WindowMRUList (Some (fresh (dom h))) (<[id := fresh (dom h)]> (l_m l)))) ∧
    Inv (State h' (WindowMRUList (Some (fresh (dom h))) (<[id := fresh (dom h)]> (l_m l))))
        (fresh (dom h) :: ps) ∧
    view h' (fresh (dom h)) = ListWindow id a ∧
    (∀ q, q ≠ fresh (dom h) → view h' q = view h q).
Proof.
  intros HI Hm. pose proof HI as [Hseg Hnd Hidx]. simpl in *.
  pose proof (Inv_fresh _ _ _ HI) as Hp.
  pose proof (Inv_head _ _ HI) as Hhd. simpl in Hhd.
  set (p := fresh (dom h)) in *.
  unfold bringFront. rewrite bind_mapGet. simpl. rewrite Hm.
  rewrite !bind_assoc, bind_new, bind_assoc, bind_mapSet, bind_ret. simpl.
  fold p. unfold setAppID.
  rewrite (bind_store p _ (MruElt None None id "")) by (simpl; apply lookup_insert_eq).
  simpl. rewrite insert_insert_eq. unfold set_appID. simpl.
  set (e1 := MruElt None None id a). set (h1 := <[p := e1]> h).
  assert (He1 : h1 !! p = Some e1) by apply lookup_insert_eq.
  rewrite bind_getHead. simpl.
  rewrite decide_False.
  2:{ rewrite Hhd. intros Heq. apply Hp. destruct ps; simplify_eq/=. left. }
  rewrite (bind_getPrev p e1) by done. simpl. rewrite bind_ret.
  rewrite (bind_getNext p e1) by done. simpl. rewrite bind_ret.
  destruct (relink h1 (WindowMRUList (l_head l) (<[id := p]> (l_m l))) p e1 ps)
    as (h2 & Hrun & Hseg2 & Hd2); [done..|by apply seg_frame|].
  simpl in Hrun. rewrite Hrun.
  exists h2. split_and!.
  - done.
  - split; simpl.
    + done.
    + by apply NoDup_cons.
    + intros i q. rewrite (same_ids_id h1 h2) by (by apply same_data_ids).
      destruct (decide (id = i)) as [<-|Hne].
      * rewrite lookup_insert_eq. split.
        -- intros [= <-]. split; [left|]. by exists e1.
        -- intros [[->|Hq]%elem_of_cons (x & Hx & Hid)]; [done|].
           assert (q ≠ p) by (by intros ->).
           unfold h1 in Hx. rewrite lookup_insert_ne in Hx by done.
           assert (l_m l !! id = Some q) by (apply Hidx; eauto). congruence.
      * rewrite lookup_insert_ne by done. rewrite Hidx. split.
        -- intros [Hq (x & Hx & Hid)]. split; [by right|].
           exists x. unfold h1. rewrite lookup_insert_ne; [done|]. by intros ->.
        -- intros [[->|Hq]%elem_of_cons (x & Hx & Hid)].
           ++ rewrite He1 in Hx. by simplify_eq/=.
           ++ split; [done|]. exists x. unfold h1 in Hx.
              rewrite lookup_insert_ne in Hx; [done|]. by intros ->.
  - rewrite (same_data_view h1 h2) by done. by rewrite (view_lookup h1 p e1).
  - intros q Hq. rewrite (same_data_view h1 h2) by done. by apply view_insert_ne.
Qed.

(** ** [delete] *)

Lemma delete_unknown s id : l_m (lst s) !! id = None → delete id s = Ok (tt, s).
Proof. intros Hm. unfold delete. rewrite bind_mapGet. by rewrite Hm. Qed.

Lemma delete_known h l id p l1 l2 :
  Inv (State h l) (l1 ++ p :: l2) →
  l_m l !! id = Some p →
  ∃ h' hd',
    delete id (State h l) = Ok (tt, State h' (WindowMRUList hd' (base.delete id (l_m l)))) ∧
    Inv (State h' (WindowMRUList hd' (base.delete id (l_m l)))) (l1 ++ l2) ∧
    same_data h h'.
Proof.
  intros HI Hm. pose proof HI as [Hseg Hnd Hidx]. simpl in *.
  destruct (proj1 (Hidx id p) Hm) as [_ (e & He & Hid)].
  pose proof (Inv_head _ _ HI) as Hhd. simpl in Hhd.
  unfold delete. rewrite bind_mapGet. simpl. rewrite Hm.
  rewrite bind_mapDelete. simpl.
  destruct (unlink_linked
              (λ _, getHead ≫= λ hd,
                 if decide (hd = Some p) then getNext p ≫= λ en, setHead en
                 else mret tt)
              h (WindowMRUList (l_head l) (base.delete id (l_m l))) p e l1 l2 (l_head l))
    as (h2 & -> & He2 & Hseg2 & Hd2); [done..|].
  rewrite bind_getHead. simpl.
  assert (Hnd2 : NoDup (p :: l1 ++ l2)).
  { eapply NoDup_Permutation_proper; [|exact Hnd]. apply Permutation_middle. }
  apply NoDup_cons in Hnd2 as [Hp2 Hnd2].
  assert (Hindex : ∀ i q, base.delete id (l_m l) !! i = Some q ↔
                          q ∈ l1 ++ l2 ∧ ∃ x, h2 !! q = Some x ∧ elt_id x = i).
  { intros i q. rewrite (same_ids_id h h2) by (by apply same_data_ids).
    rewrite lookup_delete_Some, Hidx. split.
    - intros (Hne & Hq & x & Hx & Hi). split; [|by eauto].
      apply elem_of_app in Hq as [Hq|[->|Hq]%elem_of_cons]; [set_solver| |set_solver].
      congruence.
    - intros (Hq & x & Hx & Hi). split_and!; [|set_solver|by eauto].
      intros <-. assert (l_m l !! id = Some q) by (apply Hidx; split; [set_solver|eauto]).
      congruence. }
  destruct l1 as [|q0 l1'].
  - simpl in Hhd. rewrite Hhd, decide_True by done.
    rewrite (bind_getNext p e) by done.
    exists h2, (elt_next e). split_and!; [done| |done].
    by split.
  - simpl in Hhd. rewrite Hhd in Hseg2 |- *. rewrite decide_False.
    2:{ intros [= ->]. apply Hp2. set_solver. }
    exists h2, (Some q0). split_and!; [done| |done].
    by split.
Qed.

(** ** The calls refine their effect on the sequence of records *)

Lemma Inv_newList : Inv newList [].
Proof.
  split; simpl; [done|constructor|].
  intros i p. rewrite lookup_empty. split; [done|].
  intros [Hp _]. by apply elem_of_nil in Hp.
Qed.

Lemma bringFront_spec s ps id a :
  Inv s ps →
  ∃ s' p ps',
    bringFront id a s = Ok (tt, s') ∧ Inv s' (p :: ps') ∧
    l_m (lst s') !! id = Some p ∧
    view (heap s') <$> (p :: ps')
    = ListWindow id a :: others id (view (heap s) <$> ps).
Proof.
  intros HI. destruct s as [h l]. cbn [heap lst].
  destruct (l_m l !! id) as [p|] eqn:Hm.
  - destruct (proj1 (inv_index _ _ HI id p) Hm) as [Hp (e & He & Hid)].
    simpl in He. apply list_elem_of_split in Hp as (l1 & l2 & ->).
    destruct (bringFront_known h l id a p l1 l2 HI Hm) as (h' & Hrun & HI' & Hvp & Hvo).
    pose proof (inv_nodup _ _ HI') as [Hp' _]%NoDup_cons.
    eexists _, p, (l1 ++ l2). split_and!; [done..|]. cbn [heap].
    rewrite fmap_cons, Hvp. f_equal.
    rewrite (others_split h id l1 l2 p).
    + apply fmap_view_ext. intros q Hq. apply Hvo. by intros ->.
    + by rewrite (view_lookup h p e), <-Hid.
    + intros q Hq. eapply (Inv_other_id _ _ p q id HI); [done|set_solver|by intros ->].
  - destruct (bringFront_new h l id a ps HI Hm) as (h' & Hrun & HI' & Hvp & Hvo).
    pose proof (Inv_fresh _ _ _ HI) as Hp.
    eexists _, (fresh (dom h)), ps. split_and!; [done|done|apply lookup_insert_eq|].
    cbn [heap]. rewrite fmap_cons, Hvp. f_equal.
    rewrite others_fmap_view.
    + apply fmap_view_ext. intros q Hq. apply Hvo. by intros ->.
    + intros q Hq Hid. destruct (Inv_lookup _ _ _ HI Hq) as [x Hx]. simpl in Hx.
      pose proof (Inv_index_of _ _ _ _ HI Hq Hx) as Hmq. simpl in Hmq.
      rewrite (view_lookup h q x) in Hid by done. simpl in Hid. congruence.
Qed.

Lemma delete_spec s ps id :
  Inv s ps →
  ∃ s' ps',
    delete id s = Ok (tt, s') ∧ Inv s' ps' ∧
    l_m (lst s') !! id = None ∧
    view (heap s') <$> ps' = others id (view (heap s) <$> ps).
Proof.
  intros HI. destruct (l_m (lst s) !! id) as [p|] eqn:Hm.
  - destruct s as [h l]. simpl in *.
    destruct (proj1 (inv_index _ _ HI id p) Hm) as [Hp (e & He & Hid)].
    simpl in He. apply list_elem_of_split in Hp as (l1 & l2 & ->).
    destruct (delete_known h l id p l1 l2 HI Hm) as (h' & hd' & Hrun & HI' & Hd).
    pose proof (inv_nodup _ _ HI) as Hnd.
    eexists _, (l1 ++ l2). split_and!; [done|done|apply lookup_delete_eq|]. cbn [heap].
    rewrite (others_split h id l1 l2 p).
    + apply fmap_view_ext. intros q _. by apply same_data_view.
    + by rewrite (view_lookup h p e), <-Hid.
    + intros q Hq. eapply (Inv_other_id _ _ p q id HI); [done|set_solver|].
      intros ->. apply NoDup_app in Hnd as (_ & Hdisj & [Hp2 _]%NoDup_cons).
      apply elem_of_app in Hq as [Hq|Hq]; [|done]. eapply Hdisj; [done|left].
  - exists s, ps. split_and!; [by apply delete_unknown|done..|].
    rewrite others_fmap_view; [done|].
    intros q Hq Hid. destruct (Inv_lookup _ _ _ HI Hq) as [x Hx].
    pose proof (Inv_index_of _ _ _ _ HI Hq Hx) as Hmq.
    rewrite (view_lookup _ q x) in Hid by done. simpl in Hid. congruence.
Qed.

Lemma do_call_spec s ps c :
  Inv s ps →
  ∃ s' ps',
    do_call c s = Ok (tt, s') ∧ Inv s' ps' ∧
    view (heap s') <$> ps' = abs_call c (view (heap s) <$> ps).
Proof.
  intros HI. destruct c as [id a|id]; simpl.
  - destruct (bringFront_spec s ps id a HI) as (s' & p & ps' & ? & ? & ? & ?). eauto.
  - destruct (delete_spec s ps id HI) as (s' & ps' & ? & ? & ? & ?). eauto.
Qed.

Lemma do_calls_spec cs s ps :
  Inv s ps →
  ∃ s' ps',
    do_calls cs s = Ok (tt, s') ∧ Inv s' ps' ∧
    view (heap s') <$> ps' = foldl (λ ws c, abs_call c ws) (view (heap s) <$> ps) cs.
Proof.
  revert s ps. induction cs as [|c cs IH]; intros s ps HI; simpl.
  - by exists s, ps.
  - destruct (do_call_spec s ps c HI) as (s1 & ps1 & Hrun & HI1 & Hv1).
    destruct (IH s1 ps1 HI1) as (s2 & ps2 & Hrun2 & HI2 & Hv2).
    exists s2, ps2. split_and!; [|done|by rewrite Hv2, Hv1].
    unfold mbind, M_bind. by rewrite Hrun.
Qed.

Lemma after_spec cs :
  ∃ s ps, after cs = Ok s ∧ do_calls cs newList = Ok (tt, s) ∧ Inv s ps ∧
          view (heap s) <$> ps = abs_calls cs.
Proof.
  destruct (do_calls_spec cs newList [] Inv_newList) as (s & ps & Hrun & HI & Hv).
  exists s, ps. unfold after. rewrite Hrun. by split_and!.
Qed.

(** ** Reading the list: [contents] and [all] *)

Lemma walk_seg fuel h pv cur ps :
  seg h pv cur ps None → (length ps ≤ fuel)%nat → walk fuel h cur = view h <$> ps.
Proof.
  revert fuel pv cur. induction ps as [|p ps IH]; intros fuel pv cur Hseg Hlen.
  - unfold seg in Hseg. subst cur. by destruct fuel.
  - destruct Hseg as [-> (x & Hx & _ & Hseg)]. fold seg in Hseg.
    destruct fuel as [|fuel]; simpl in *; [lia|].
    rewrite Hx, (view_lookup h p x) by done. f_equal.
    eapply IH; [done|lia].
Qed.

Lemma Inv_length s ps : Inv s ps → (length ps ≤ size (heap s))%nat.
Proof.
  intros HI. pose proof (inv_nodup _ _ HI) as Hnd.
  rewrite <-size_dom, <-(size_list_to_set (C := gset positive) ps) by done.
  apply subseteq_size. intros p Hp. apply elem_of_list_to_set in Hp.
  apply elem_of_dom. by eapply Inv_lookup.
Qed.

Lemma contents_spec s ps : Inv s ps → contents s = view (heap s) <$> ps.
Proof.
  intros HI. unfold contents. eapply walk_seg; [apply HI|by apply Inv_length].
Qed.

Lemma all_loop_seg room h pv cur ps nodes :
  seg h pv cur ps None →
  all_loop room h cur nodes
  = if decide (length ps ≤ room)%nat then Ok (nodes ++ (view h <$> ps))
    else Panic "boom".
Proof.
  revert room pv cur nodes. induction ps as [|p ps IH]; intros room pv cur nodes Hseg.
  - unfold seg in Hseg. subst cur. rewrite decide_True by (simpl; lia).
    rewrite fmap_nil, app_nil_r. by destruct room.
  - destruct Hseg as [-> (x & Hx & _ & Hseg)]. fold seg in Hseg.
    destruct room as [|room].
    + by rewrite decide_False by (simpl; lia).
    + cbn [all_loop]. rewrite Hx, (IH room _ _ _ Hseg), fmap_cons, (view_lookup h p x) by done.
      rewrite <-app_assoc. cbn [length app].
      destruct (decide (length ps ≤ room)%nat), (decide (S (length ps) ≤ S room)%nat);
        [done|lia|lia|done].
Qed.

Lemma all_spec s ps :
  Inv s ps →
  all s = if decide (length ps ≤ 100)%nat then Ok (view (heap s) <$> ps, s)
          else Panic "boom".
Proof.
  intros HI. unfold all. rewrite (all_loop_seg 100 _ None _ ps) by apply HI.
  by destruct (decide (length ps ≤ 100)%nat).
Qed.

(** ** Ids along the chain *)

Lemma Inv_NoDup_ids s ps : Inv s ps → NoDup (ID <$> (view (heap s) <$> ps)).
Proof.
  intros HI. rewrite <-list_fmap_compose.
  apply NoDup_fmap_2_strong; [|apply HI].
  intros p q Hp Hq Heq. simpl in Heq.
  destruct (Inv_lookup _ _ _ HI Hp) as [x Hx], (Inv_lookup _ _ _ HI Hq) as [y Hy].
  pose proof (Inv_index_of _ _ _ _ HI Hp Hx) as Hmp.
  pose proof (Inv_index_of _ _ _ _ HI Hq Hy) as Hmq.
  rewrite (view_lookup _ p x), (view_lookup _ q y) in Heq by done. simpl in Heq.
  congruence.
Qed.

Lemma Inv_index_ids s ps i :
  Inv s ps → l_m (lst s) !! i = None ↔ i ∉ ID <$> (view (heap s) <$> ps).
Proof.
  intros HI. split.
  - intros Hm (w & -> & (p & -> & Hp)%list_elem_of_fmap)%list_elem_of_fmap.
    destruct (Inv_lookup _ _ _ HI Hp) as [x Hx].
    pose proof (Inv_index_of _ _ _ _ HI Hp Hx) as Hmp.
    rewrite (view_lookup _ p x) in Hm by done. simpl in Hm. congruence.
  - intros Hi. destruct (l_m (lst s) !! i) as [p|] eqn:Hm; [|done].
    destruct (proj1 (inv_index _ _ HI i p) Hm) as [Hp (x & Hx & Hid)].
    exfalso. apply Hi. apply list_elem_of_fmap. exists (view (heap s) p).
    split; [by rewrite (view_lookup _ p x)|]. by apply list_elem_of_fmap_2.
Qed.

(** ** The sequence of records as a function of the calls *)

Lemma elem_of_others i j (ws : list listWindow) :
  i ∈ ID <$> others j ws ↔ i ≠ j ∧ i ∈ ID <$> ws.
Proof.
  unfold others. rewrite !list_elem_of_fmap. split.
  - intros (w & -> & [Hw ?]%list_elem_of_filter). eauto.
  - intros (Hne & w & -> & Hw). exists w. split; [done|]. by apply list_elem_of_filter.
Qed.

Lemma others_absent i (ws : list listWindow) : i ∉ ID <$> ws → others i ws = ws.
Proof.
  intros Hi. unfold others. induction ws as [|w ws IH]; [done|].
  rewrite fmap_cons in Hi. apply not_elem_of_cons in Hi as [Hne Hi].
  rewrite filter_cons_True by done. by rewrite IH.
Qed.

Lemma others_comm i j (ws : list listWindow) :
  others i (others j ws) = others j (others i ws).
Proof. unfold others. rewrite !list_filter_filter. apply list_filter_iff. tauto. Qed.

Lemma others_idemp i (ws : list listWindow) : others i (others i ws) = others i ws.
Proof.
  unfold others. rewrite list_filter_filter. apply list_filter_iff. tauto.
Qed.

Lemma abs_calls_snoc cs c : abs_calls (cs ++ [c]) = abs_call c (abs_calls cs).
Proof. unfold abs_calls. by rewrite foldl_app. Qed.

Lemma live_snoc cs c i :
  live (cs ++ [c]) i ↔ (∃ a, c = BringFront i a) ∨ (c ≠ Delete i ∧ live cs i).
Proof.
  split.
  - intros (cs1 & a & cs2 & Heq & Hnd).
    destruct cs2 as [|c2 cs2' _] using rev_ind.
    + apply app_inj_tail in Heq as [_ ->]. eauto.
    + rewrite app_comm_cons, app_assoc in Heq.
      apply app_inj_tail in Heq as [-> ->]. right.
      rewrite elem_of_app, list_elem_of_singleton in Hnd. split; [naive_solver|].
      exists cs1, a, cs2'. naive_solver.
  - intros [[a ->]|[Hc (cs1 & a & cs2 & -> & Hnd)]].
    + exists cs, a, []. split; [done|]. apply not_elem_of_nil.
    + exists cs1, a, (cs2 ++ [c]). split; [by rewrite <-app_assoc|].
      rewrite elem_of_app, list_elem_of_singleton. naive_solver.
Qed.

Lemma abs_calls_live cs i : i ∈ ID <$> abs_calls cs ↔ live cs i.
Proof.
  induction cs as [|c cs IH] using rev_ind.
  - split.
    + intros H. by apply elem_of_nil in H.
    + intros (cs1 & a & cs2 & Heq & _). by destruct cs1.
  - rewrite abs_calls_snoc, live_snoc. destruct c as [j b|j]; cbn [abs_call].
    + rewrite fmap_cons, elem_of_cons, elem_of_others, IH. simpl.
      destruct (decide (i = j)) as [->|Hne]; naive_solver.
    + rewrite elem_of_others, IH. naive_solver.
Qed.

Lemma abs_calls_never_seen id cs :
  abs_calls (never_seen id cs) = others id (abs_calls cs).
Proof.
  induction cs as [|c cs IH] using rev_ind; [done|].
  unfold never_seen in *. rewrite filter_app, abs_calls_snoc.
  destruct (decide (call_id c = id)) as [Hc|Hc].
  - rewrite filter_cons_False, filter_nil, app_nil_r, IH by naive_solver.
    destruct c as [j b|j]; simpl in *; subst j.
    + unfold others at 2. rewrite filter_cons_False by naive_solver.
      fold (others id (others id (abs_calls cs))). by rewrite others_idemp.
    + by rewrite others_idemp.
  - rewrite filter_cons_True, filter_nil, abs_calls_snoc, IH by done.
    destruct c as [j b|j]; simpl in *.
    + unfold others at 3. rewrite filter_cons_True by done.
      fold (others id (others j (abs_calls cs))). by rewrite others_comm.
    + by rewrite others_comm.
Qed.

(** ** After any sequence of calls *)

Lemma after_contents cs :
  ∃ s ps, after cs = Ok s ∧ Inv s ps ∧ contents s = abs_calls cs.
Proof.
  destruct (after_spec cs) as (s & ps & Hs & _ & HI & Hv).
  exists s, ps. split_and!; [done..|]. by rewrite (contents_spec s ps).
Qed.

(** The snapshot is right whenever at most 100 records are linked, and a
    panic otherwise. *)
Lemma snapshot_after_spec cs :
  snapshot_after cs
  = if decide (length (abs_calls cs) ≤ 100)%nat then Ok (abs_calls cs)
    else Panic "boom".
Proof.
  destruct (after_spec cs) as (s & ps & _ & Hrun & HI & Hv).
  unfold snapshot_after, mbind, M_bind. rewrite Hrun, (all_spec s ps HI).
  rewrite <-Hv, length_fmap. by destruct (decide (length ps ≤ 100)%nat).
Qed.

Lemma snapshot_after_ids cs ws :
  snapshot_after cs = Ok ws → NoDup (ID <$> ws) ∧ ∀ i, i ∈ ID <$> ws ↔ live cs i.
Proof.
  rewrite snapshot_after_spec. case_decide; [|done]. intros [= <-].
  split; [|apply abs_calls_live].
  destruct (after_spec cs) as (s & ps & _ & _ & HI & <-). by apply Inv_NoDup_ids.
Qed.

(** ** The claims about the MRU list *)

Lemma live_focus_each n i del :
  i ∈ Z.of_nat <$> seq 1 n → i ≠ del → live (focus_each n ++ [Delete del]) i.
Proof.
  intros (k & -> & Hk)%list_elem_of_fmap Hne.
  assert (Hin : BringFront (Z.of_nat k) "term" ∈ focus_each n).
  { unfold focus_each. by apply (list_elem_of_fmap_2 (λ i, BringFront (Z.of_nat i) "term")). }
  apply list_elem_of_split in Hin as (cs1 & cs2 & Heq).
  exists cs1, "term", (cs2 ++ [Delete del]). split.
  - by rewrite Heq, <-app_assoc.
  - rewrite elem_of_app, list_elem_of_singleton. intros [Hd|[=]]; [|done].
    assert (Hd' : Delete (Z.of_nat k) ∈ focus_each n) by (rewrite Heq; set_solver).
    unfold focus_each in Hd'. by apply list_elem_of_fmap in Hd' as (? & ? & _).
Qed.

(** C1. The ids of the snapshot are the ids passed to [bringFront] and not
    later to [delete], each of them once -- in every snapshot that [all]
    returns.  It does not return one for every sequence of calls: after
    102 windows were focused and one of them closed, 101 ids are live and
    [all] panics instead of returning them. *)
Theorem snapshot_ids_unless_panic :
  (∀ cs ws, snapshot_after cs = Ok ws →
            NoDup (ID <$> ws) ∧ ∀ i, i ∈ ID <$> ws ↔ live cs i) ∧
  snapshot_after (focus_each 102 ++ [Delete 5]) = Panic "boom" ∧
  (∀ i, i ∈ Z.of_nat <$> seq 1 102 → i ≠ 5 →
        live (focus_each 102 ++ [Delete 5]) i).
Proof.
  split_and!; [apply snapshot_after_ids|by vm_compute|].
  intros i. apply live_focus_each.
Qed.

(** C3. [bringFront] and [delete] return normally in every state of the
    list, and [all] returns the whole sequence as long as at most 100
    records are linked; with more it panics: with 101 records, in its 101st
    iteration. *)
Theorem all_panics_beyond_100_records :
  (∀ cs, is_ok (after cs) = true) ∧
  (∀ cs, snapshot_after cs
         = if decide (length (abs_calls cs) ≤ 100)%nat then Ok (abs_calls cs)
           else Panic "boom") ∧
  length (abs_calls (focus_each 101)) = 101%nat ∧
  snapshot_after (focus_each 101) = Panic "boom".
Proof.
  split_and!; [|apply snapshot_after_spec|by vm_compute..].
  intros cs. destruct (after_spec cs) as (s & ps & -> & _). done.
Qed.

(** C2. After [bringFront id appID] the record of [id] is the head of the
    list and carries [appID]; the other records follow in the order they
    had.  When [id] was the head already, the order of the whole list is
    unchanged. *)
Theorem bringFront_moves_to_head cs id appID :
  ∃ s s' p e,
    after cs = Ok s ∧ bringFront id appID s = Ok (tt, s') ∧
    l_head (lst s') = Some p ∧ l_m (lst s') !! id = Some p ∧
    heap s' !! p = Some e ∧ elt_id e = id ∧ elt_appID e = appID ∧
    contents s' = ListWindow id appID :: others id (contents s) ∧
    (∀ a rest, contents s = ListWindow id a :: rest →
               contents s' = ListWindow id appID :: rest).
Proof.
  destruct (after_contents cs) as (s & ps & Hs & HI & Hc).
  destruct (bringFront_spec s ps id appID HI) as (s' & p & ps' & Hrun & HI' & Hm & Hv).
  destruct (Inv_lookup s' (p :: ps') p HI') as [e He]; [left|].
  assert (Hve : ListWindow (elt_id e) (elt_appID e) = ListWindow id appID).
  { rewrite fmap_cons, (view_lookup _ p e) in Hv by done. congruence. }
  assert (Hc' : contents s' = ListWindow id appID :: others id (contents s)).
  { by rewrite (contents_spec s' (p :: ps')), (contents_spec s ps). }
  exists s, s', p, e. split_and!; [done|done| |done|done|congruence|congruence|done|].
  - by rewrite (Inv_head s' (p :: ps')).
  - intros a rest Hrest. rewrite Hc', Hrest. f_equal.
    pose proof (Inv_NoDup_ids s ps HI) as Hnd.
    rewrite <-(contents_spec s ps), Hrest, fmap_cons in Hnd by done.
    apply NoDup_cons in Hnd as [Hid _]. unfold others.
    rewrite filter_cons_False by (simpl; tauto). by apply others_absent.
Qed.

(** C7. [delete] of an id that is not in the list leaves the state as it
    is.  [delete id] followed by [bringFront id appID] links a newly
    allocated record at the head, and the list is then the one that
    [bringFront id appID] gives when no earlier call mentioned [id]. *)
Theorem delete_then_bringFront cs id appID :
  ∃ s s1 s2 s0 s3 p,
    after cs = Ok s ∧
    (id ∉ ID <$> contents s → delete id s = Ok (tt, s)) ∧
    delete id s = Ok (tt, s1) ∧ bringFront id appID s1 = Ok (tt, s2) ∧
    after (never_seen id cs) = Ok s0 ∧ bringFront id appID s0 = Ok (tt, s3) ∧
    contents s2 = contents s3 ∧
    contents s2 = ListWindow id appID :: others id (contents s) ∧
    l_head (lst s2) = Some p ∧ heap s1 !! p = None.
Proof.
  destruct (after_contents cs) as (s & ps & Hs & HI & Hc).
  destruct (delete_spec s ps id HI) as (s1 & ps1 & Hdel & HI1 & Hm1 & Hv1).
  destruct (after_contents (never_seen id cs)) as (s0 & ps0 & Hs0 & HI0 & Hc0).
  destruct (bringFront_spec s0 ps0 id appID HI0) as (s3 & p3 & ps3 & Hrun3 & HI3 & _ & Hv3).
  destruct s1 as [h1 l1]. simpl in Hm1.
  destruct (bringFront_new h1 l1 id appID ps1 HI1 Hm1) as (h2 & Hrun2 & HI2 & Hvp & Hvo).
  pose proof (Inv_fresh _ _ _ HI1) as Hp.
  eexists s, _, _, s0, s3, (fresh (dom h1)).
  assert (Hc1 : contents (State h1 l1) = others id (contents s)).
  { by rewrite (contents_spec _ ps1), (contents_spec s ps). }
  assert (Hc2 : contents (State h2 (WindowMRUList (Some (fresh (dom h1)))
                                      (<[id := fresh (dom h1)]> (l_m l1))))
                = ListWindow id appID :: others id (contents s)).
  { rewrite (contents_spec _ (fresh (dom h1) :: ps1)) by done. cbn [heap].
    rewrite fmap_cons, Hvp, <-Hc1, (contents_spec _ ps1) by done. cbn [heap].
    f_equal. apply fmap_view_ext. intros q Hq. apply Hvo. by intros ->. }
  split_and!; [done| |done|done|done|done| |done|done|].
  - intros Hid. apply delete_unknown. apply (Inv_index_ids s ps id HI).
    by rewrite <-(contents_spec s ps).
  - rewrite Hc2, (contents_spec s3 (p3 :: ps3)), Hv3 by done.
    rewrite <-(contents_spec s0 ps0), Hc0, Hc, abs_calls_never_seen by done.
    by rewrite others_idemp.
  - apply not_elem_of_dom, is_fresh.
Qed.

End MRUFacts.

(** * Facts about the daemon *)

Module DaemonFacts.
Import MRU Sway Daemon MRUFacts.

Lemma all_state s ws s' : all s = Ok (ws, s') → s' = s.
Proof. unfold all. destruct (all_loop _ _ _ _); naive_solver. Qed.

Lemma logList_state verbose s s' : logList verbose s = Ok (tt, s') → s' = s.
Proof.
  destruct verbose; simpl; [|by intros [= ->]].
  unfold mbind, M_bind. destruct (all s) as [[ws s1]|msg] eqn:Hall; [|done].
  apply all_state in Hall as ->. by intros [= ->].
Qed.

Lemma logList_quiet s : logList false s = Ok (tt, s).
Proof. done. Qed.

(** An event that is handled without a panic did to the list what its
    call does. *)
Lemma Window_call verbose e s s' :
  Window verbose e s = Ok (tt, s') →
  do_calls (option_list (event_call e)) s = Ok (tt, s').
Proof.
  unfold Window, event_call.
  destruct (decide (Change e = WindowFocus)); [|destruct (decide (Change e = WindowClose))];
    simpl; unfold mbind, M_bind.
  - destruct (bringFront _ _ s) as [[[] s1]|msg]; [|done].
    intros ->%logList_state. done.
  - destruct (MRU.delete _ s) as [[[] s1]|msg]; [|done].
    intros ->%logList_state. done.
  - done.
Qed.

Lemma do_calls_app cs1 cs2 s :
  do_calls (cs1 ++ cs2) s = (do_calls cs1 ≫= λ _, do_calls cs2) s.
Proof.
  revert s. induction cs1 as [|c cs1 IH]; intros s; [reflexivity|].
  cbn [do_calls app]. rewrite bind_assoc. unfold mbind, M_bind.
  destruct (do_call c s) as [[[] s1]|msg]; [|done]. apply IH.
Qed.

Lemma Windows_calls verbose es s s' :
  Windows verbose es s = Ok (tt, s') → do_calls (calls_of es) s = Ok (tt, s').
Proof.
  revert s. induction es as [|e es IH]; intros s; [done|].
  cbn [Windows]. intros ([] & s1 & He & Hes)%bind_Ok.
  apply Window_call in He. apply IH in Hes.
  unfold calls_of. rewrite bind_cons, do_calls_app.
  apply bind_Ok. by exists tt, s1.
Qed.

(** With logging off, no sequence of events makes the handler panic. *)
Lemma Windows_quiet es s ps :
  Inv s ps → ∃ s', Windows false es s = Ok (tt, s').
Proof.
  revert s ps. induction es as [|e es IH]; intros s ps HI; simpl; [by eexists|].
  assert (∃ s1 ps1, Window false e s = Ok (tt, s1) ∧ Inv s1 ps1) as (s1 & ps1 & Hrun & HI1).
  { unfold Window.
    destruct (decide (Change e = WindowFocus)); [|destruct (decide (Change e = WindowClose))].
    - destruct (bringFront_spec s ps (n_ID (Container e)) (focusAppID (Container e)) HI)
        as (s1 & p & ps1 & Hrun & HI1 & _).
      exists s1, (p :: ps1). split; [|done]. unfold mbind, M_bind. by rewrite Hrun.
    - destruct (delete_spec s ps (n_ID (Container e)) HI) as (s1 & ps1 & Hrun & HI1 & _).
      exists s1, ps1. split; [|done]. unfold mbind, M_bind. by rewrite Hrun.
    - by exists s, ps. }
  destruct (IH s1 ps1 HI1) as (s' & Hrun').
  exists s'. unfold mbind, M_bind. by rewrite Hrun.
Qed.

(** A record [{id, "?"}] stays in the sequence under calls that keep it. *)
Lemma abs_call_keeps id c ws :
  call_keeps id c → ListWindow id "?" ∈ ws → ListWindow id "?" ∈ abs_call c ws.
Proof.
  intros Hc Hin. destruct c as [j a|j]; simpl in *.
  - destruct (decide (j = id)) as [->|Hne].
    + rewrite Hc by done. left.
    + right. apply list_elem_of_filter. by split; [simpl; congruence|].
  - apply list_elem_of_filter. by split; [simpl; congruence|].
Qed.

Lemma foldl_abs_call_keeps id cs ws :
  Forall (call_keeps id) cs → ListWindow id "?" ∈ ws →
  ListWindow id "?" ∈ foldl (λ ws c, abs_call c ws) ws cs.
Proof.
  intros Hcs. revert ws. induction Hcs as [|c cs Hc _ IH]; intros ws Hin; simpl; [done|].
  apply IH. by apply abs_call_keeps.
Qed.

Lemma keeps_calls id es :
  forallb (keeps id) es = true → Forall (call_keeps id) (calls_of es).
Proof.
  induction es as [|e es IH]; [constructor|]. cbn [forallb].
  intros [He Hes]%andb_prop. unfold calls_of. rewrite bind_cons.
  apply Forall_app. split; [|by apply IH].
  unfold keeps in He. unfold event_call.
  destruct (decide (Change e = WindowFocus)) as [Hf|Hf];
    [|destruct (decide (Change e = WindowClose)) as [Hc|Hc]]; simpl;
    repeat constructor; simpl.
  - intros Hid. rewrite bool_decide_eq_false_2 in He by naive_solver.
    rewrite (bool_decide_eq_false_2 (Change e ≠ WindowFocus)) in He by naive_solver.
    simpl in He. apply andb_prop in He as [_ He]. by apply bool_decide_eq_true in He.
  - intros Hid. rewrite bool_decide_eq_false_2 in He by naive_solver.
    rewrite (bool_decide_eq_false_2 (Change e ≠ WindowClose)) in He by naive_solver.
    done.
Qed.

Lemma focusAppID_unnamed c :
  n_AppID c = None ∨ n_AppID c = Some "" → focusAppID c = "?".
Proof. unfold focusAppID. by intros [->| ->]. Qed.

(** C10. A focus event whose container has no application id, or an
    empty one, makes the handler call [bringFront] with ["?"]; from then
    on every answer of the daemon lists the window with [AppID] ["?"], for
    as long as no event closes the window or focuses it with an
    application id of its own. *)
Theorem unnamed_window_listed_with_question_mark verbose es1 e es2 ws :
  Change e = WindowFocus →
  n_AppID (Container e) = None ∨ n_AppID (Container e) = Some "" →
  forallb (keeps (n_ID (Container e))) es2 = true →
  query_after verbose (es1 ++ e :: es2) = Ok ws →
  (∀ s, Window verbose e s
        = (bringFront (n_ID (Container e)) "?" ≫= λ _, logList verbose) s) ∧
  ListWindow (n_ID (Container e)) "?" ∈ ws ∧
  (∀ w, w ∈ ws → ID w = n_ID (Container e) → AppID w = "?").
Proof.
  intros Hfocus Hun Hkeep Hq.
  pose proof (focusAppID_unnamed _ Hun) as Happ.
  split.
  { intros s. unfold Window. rewrite decide_True by done. by rewrite Happ. }
  unfold query_after, handle, mbind, M_bind in Hq.
  destruct (Windows verbose (es1 ++ e :: es2) newList) as [[[] s]|msg] eqn:Hrun; [|done].
  destruct (all s) as [[ws' s']|msg] eqn:Hall; [|done].
  injection Hq as ->.
  apply Windows_calls in Hrun.
  destruct (do_calls_spec (calls_of (es1 ++ e :: es2)) newList [] Inv_newList)
    as (s1 & ps & Hrun1 & HI & Hv).
  rewrite Hrun in Hrun1. injection Hrun1 as <-.
  rewrite (all_spec s ps HI) in Hall.
  destruct (decide (length ps ≤ 100)%nat); [|done]. injection Hall as <- _.
  assert (Hin : ListWindow (n_ID (Container e)) "?" ∈ view (heap s) <$> ps).
  { rewrite Hv. unfold calls_of. rewrite bind_app, bind_cons, !foldl_app.
    apply foldl_abs_call_keeps; [by apply keeps_calls|].
    unfold event_call. rewrite decide_True, Happ by done. simpl. left. }
  split; [done|].
  intros w Hw Hid. pose proof (Inv_NoDup_ids s ps HI) as Hnd.
  apply list_elem_of_lookup in Hw as [i Hi], Hin as [j Hj].
  assert (i = j).
  { apply (NoDup_lookup _ i j (ID w) Hnd).
    - by rewrite list_lookup_fmap, Hi.
    - by rewrite list_lookup_fmap, Hj; simpl; rewrite Hid. }
  subst j. by simplify_eq.
Qed.

End DaemonFacts.

(** * Facts about the selection of windows *)

Module TreeFacts.
Import Sway Tree.

(** Induction on trees of nodes. *)
Lemma Node_ind (P : Node → Prop) :
  (∀ a i name t app v f ns fs,
     Forall P ns → Forall P fs → P (MkNode a i name t app v f ns fs)) →
  ∀ n, P n.
Proof.
  intros H. fix IH 1. intros [a i name t app v f ns fs].
  apply H.
  - induction ns as [|n ns IHns]; constructor; [apply IH|apply IHns].
  - induction fs as [|n fs IHfs]; constructor; [apply IH|apply IHfs].
Qed.

Lemma foldl_walkTree {S} (fn : Node → S → S) (l : list Node) (s : S) :
  Forall (λ n, ∀ s, walkTree n fn s = foldl (λ s n, fn n s) s (preorder n)) l →
  foldl (λ s n, walkTree n fn s) s l
  = foldl (λ s n, fn n s) s (concat (preorder <$> l)).
Proof.
  intros Hl. revert s. induction Hl as [|n l Hn _ IH]; intros s; [done|].
  rewrite fmap_cons. cbn [foldl concat]. by rewrite foldl_app, Hn, IH.
Qed.

(** [walkTree] calls [fn] on the nodes in [preorder]. *)
Lemma walkTree_preorder {S} (fn : Node → S → S) (node : Node) (s : S) :
  walkTree node fn s = foldl (λ s n, fn n s) s (preorder node).
Proof.
  revert s. induction node as [a i name t app v f ns fs IHns IHfs] using Node_ind.
  intros s. cbn [walkTree preorder n_Nodes n_FloatingNodes foldl].
  rewrite foldl_app. by rewrite !foldl_walkTree.
Qed.

Lemma foldl_append_if {A} (fn : A → bool) (l acc : list A) :
  foldl (λ matches n, if fn n then matches ++ [n] else matches) acc l
  = acc ++ filter fn l.
Proof.
  revert acc. induction l as [|x l IH]; intros acc; cbn [foldl].
  - by rewrite filter_nil, app_nil_r.
  - rewrite IH. destruct (fn x) eqn:Hx.
    + rewrite filter_cons_True by (by apply Is_true_true). by rewrite <-app_assoc.
    + by rewrite filter_cons_False by (by apply Is_true_false).
Qed.

(** [treeSelect] returns the nodes that satisfy [fn], in [preorder]. *)
Lemma treeSelect_filter (root : Node) (fn : Node → bool) :
  treeSelect root fn = filter fn (preorder root).
Proof. unfold treeSelect. by rewrite walkTree_preorder, foldl_append_if. Qed.

Lemma pick_true titleRE appID n :
  pick titleRE appID n = true ↔
  (n_Type n = NodeCon ∨ n_Type n = NodeFloatingCon) ∧
  (∀ re, titleRE = Some re → re (n_Name n) = true) ∧
  (appID ≠ "" → n_AppID n = Some appID).
Proof.
  unfold pick.
  destruct titleRE as [re|]; [destruct (re (n_Name n)) eqn:Hre|];
    destruct (n_AppID n) as [b|]; simpl;
    repeat case_bool_decide; simpl; naive_solver.
Qed.

Lemma sameApp_true a n : sameApp a n = true ↔ n_AppID n = Some a.
Proof.
  unfold sameApp. destruct (n_AppID n) as [b|]; [|done].
  case_bool_decide; naive_solver.
Qed.

(** The closure of [cmdAppNext] does not read [n.Type]: on a tree in which
    a workspace carries an application id, its selection returns the
    workspace, and [cmdAppNext] focuses it. *)
Lemma appnext_selects_a_workspace :
  named_workspace ∈ treeSelect named_workspace (sameApp "foot") ∧
  ¬ (n_Type named_workspace = NodeCon ∨ n_Type named_workspace = NodeFloatingCon) ∧
  cmdAppNext (λ _, true) named_workspace (Some named_terminal)
  = Focused (n_ID named_workspace).
Proof.
  split_and!.
  - vm_compute. left.
  - intros [H|H]; by vm_compute in H.
  - reflexivity.
Qed.


(** ** [cmdAppNext] and [cmdPrev] *)

Lemma IndexFunc_first {A B} `{EqDecision B} (g : A → B) (l : list A) (i : nat) (x : A) :
  NoDup (g <$> l) → l !! i = Some x →
  IndexFunc l (λ y, bool_decide (g y = g x)) = Z.of_nat i.
Proof.
  revert i. induction l as [|y l IH]; intros i Hnd Hi; [done|].
  rewrite fmap_cons in Hnd. apply NoDup_cons in Hnd as [Hy Hnd].
  destruct i as [|i]; simpl in *.
  - injection Hi as ->. by rewrite bool_decide_eq_true_2.
  - rewrite bool_decide_eq_false_2.
    2:{ intros Heq. apply Hy. rewrite Heq. apply list_elem_of_fmap_2.
        by eapply list_elem_of_lookup_2. }
    rewrite (IH i) by done.
    destruct (Z.of_nat i <? 0) eqn:Hlt; lia.
Qed.

Lemma treeSelect_NoDup_addr root fn :
  NoDup (n_addr <$> preorder root) → NoDup (n_addr <$> treeSelect root fn).
Proof.
  intros Hnd. eapply sublist_NoDup; [exact Hnd|].
  rewrite treeSelect_filter. apply fmap_sublist, sublist_filter.
Qed.

(** C5. With [n >= 2] matches for the application id of the focused node,
    and the focused node at index [i] among them, [cmdAppNext] focuses the
    match at index [(i + 1) mod n]; with fewer than two matches it returns
    without running a command. *)
Theorem cmdAppNext_focuses_next_match run root f a :
  n_AppID f = Some a →
  ((length (treeSelect root (sameApp a)) < 2)%nat →
   cmdAppNext run root (Some f) = Nothing) ∧
  (∀ i, (2 ≤ length (treeSelect root (sameApp a)))%nat →
        NoDup (n_addr <$> preorder root) →
        treeSelect root (sameApp a) !! i = Some f →
        ∃ n, treeSelect root (sameApp a)
               !! ((i + 1) `mod` length (treeSelect root (sameApp a)))%nat = Some n ∧
             cmdAppNext run root (Some f) = focusCon run (n_ID n)).
Proof.
  intros Ha. unfold cmdAppNext. rewrite Ha.
  set (matches := treeSelect root (sameApp a)). split.
  - intros Hlen. by rewrite (proj2 (Z.ltb_lt _ _)) by lia.
  - intros i Hlen Hnd Hi.
    rewrite (proj2 (Z.ltb_ge _ _)) by lia.
    rewrite (IndexFunc_first n_addr matches i f) by (by try apply treeSelect_NoDup_addr).
    rewrite (proj2 (Z.ltb_ge _ _)) by lia.
    rewrite Z.rem_mod_nonneg by lia.
    replace (Z.of_nat i + 1) with (Z.of_nat (i + 1)) by lia.
    rewrite <-Nat2Z.inj_mod, Nat2Z.id.
    destruct (lookup_lt_is_Some_2 matches ((i + 1) `mod` length matches)%nat) as [n Hn].
    { apply Nat.mod_upper_bound. lia. }
    exists n. by rewrite Hn.
Qed.

(** C6. [cmdPrev] focuses the first window of the MRU list whose id is not
    that of the focused node; when every entry has that id, or there is no
    entry, it logs that there is no other window and returns. *)
Theorem cmdPrev_focuses_first_other run mruList f :
  (∀ l1 w l2,
     mruList = l1 ++ w :: l2 →
     Forall (λ x, MRU.ID x = n_ID f) l1 → MRU.ID w ≠ n_ID f →
     cmdPrev run mruList (Some f) = focusCon run (MRU.ID w)) ∧
  (Forall (λ x, MRU.ID x = n_ID f) mruList →
   cmdPrev run mruList (Some f) = Logged "No other window to focus").
Proof.
  unfold cmdPrev. split.
  - intros l1 w l2 -> Hl1 Hw. induction Hl1 as [|x l1 Hx _ IH]; simpl.
    + by rewrite bool_decide_eq_false_2.
    + by rewrite bool_decide_eq_true_2.
  - intros Hall. induction Hall as [|x l Hx _ IH]; simpl; [done|].
    by rewrite bool_decide_eq_true_2.
Qed.

(** ** Stable insertion sort *)

Section stable_sort.
Context {A : Type} (lt : A → A → bool).
Hypothesis lt_irrefl : ∀ x, lt x x = false.
Hypothesis lt_trans : ∀ x y z, lt x y = true → lt y z = true → lt x z = true.
Hypothesis lt_negtrans : ∀ x y z, lt x z = true → lt x y = true ∨ lt y z = true.

Lemma lt_asym x y : lt x y = true → lt y x = false.
Proof.
  intros Hxy. destruct (lt y x) eqn:Hyx; [|done].
  by rewrite <-(lt_irrefl x), (lt_trans x y x).
Qed.

Lemma insertBack_pure_perm x rp : insertBack_pure lt x rp ≡ₚ x :: rp.
Proof using Type.
  induction rp as [|y rp IH]; simpl; [done|].
  destruct (lt x y); [|done]. rewrite IH. apply Permutation_swap.
Qed.

Lemma insertionSort_pure_perm data rp :
  insertionSort_pure lt data rp ≡ₚ reverse rp ++ data.
Proof using Type.
  revert rp. induction data as [|x data IH]; intros rp; simpl.
  - by rewrite app_nil_r.
  - rewrite IH, !reverse_Permutation, insertBack_pure_perm.
    apply Permutation_middle.
Qed.

Lemma insertBack_pure_rsorted x rp :
  rsorted lt rp → rsorted lt (insertBack_pure lt x rp).
Proof.
  unfold rsorted. induction 1 as [|y rp Hrp IH Hy]; simpl.
  - repeat constructor.
  - destruct (lt x y) eqn:Hxy.
    + constructor; [done|].
      rewrite insertBack_pure_perm. constructor; [by apply lt_asym|done].
    + constructor; [by constructor|]. constructor; [done|].
      apply Forall_forall. intros z Hz.
      destruct (lt x z) eqn:Hxz; [|done].
      destruct (lt_negtrans x y z Hxz) as [?|Hyz]; [congruence|].
      rewrite Forall_forall in Hy. by rewrite Hy in Hyz.
Qed.

Lemma rsorted_reverse rp :
  rsorted lt rp → StronglySorted (λ a b, lt b a = false) (reverse rp).
Proof using Type.
  unfold rsorted. induction 1 as [|y rp Hrp IH Hy]; [constructor|].
  rewrite reverse_cons.
  apply StronglySorted_app_2; [|exact IH|repeat constructor].
  intros a b Ha ->%list_elem_of_singleton.
  rewrite Forall_forall in Hy. apply Hy. by apply elem_of_reverse.
Qed.

Lemma insertionSort_pure_sorted data rp :
  rsorted lt rp →
  StronglySorted (λ a b, lt b a = false) (insertionSort_pure lt data rp).
Proof.
  revert rp. induction data as [|x data IH]; intros rp Hrp; simpl.
  - by apply rsorted_reverse.
  - by apply IH, insertBack_pure_rsorted.
Qed.

(** Stability: elements that tie keep their order. *)
Lemma insertBack_pure_stable (P : A → Prop) `{∀ x, Decision (P x)} x rp :
  (∀ a b, P a → P b → lt a b = false) →
  filter P (reverse (insertBack_pure lt x rp)) = filter P (reverse rp ++ [x]).
Proof using Type.
  intros HP. induction rp as [|y rp IH]; simpl; [done|].
  destruct (lt x y) eqn:Hxy; [|by rewrite !reverse_cons].
  rewrite !reverse_cons, !filter_app, IH, filter_app, <-!app_assoc. f_equal.
  destruct (decide (P x)) as [Hx|Hx], (decide (P y)) as [Hy|Hy].
  - by rewrite HP in Hxy.
  - by rewrite (filter_cons_False _ y), (filter_cons_True _ x).
  - by rewrite (filter_cons_True _ y), (filter_cons_False _ x).
  - by rewrite (filter_cons_False _ y), (filter_cons_False _ x).
Qed.

Lemma insertionSort_pure_stable (P : A → Prop) `{∀ x, Decision (P x)} data rp :
  (∀ a b, P a → P b → lt a b = false) →
  filter P (insertionSort_pure lt data rp) = filter P (reverse rp ++ data).
Proof using Type.
  intros HP. revert rp. induction data as [|x data IH]; intros rp; simpl.
  - by rewrite app_nil_r.
  - change (x :: data) with ([x] ++ data).
    by rewrite IH, app_assoc, !filter_app, insertBack_pure_stable, filter_app.
Qed.

(** Elements that tie with [n] do not rank before one another. *)
Lemma tie_class n a b :
  lt n a = false → lt a n = false → lt n b = false → lt b n = false →
  lt a b = false.
Proof.
  intros Hna Han Hnb Hbn. destruct (lt a b) eqn:Hab; [|done].
  destruct (lt_negtrans a n b Hab); congruence.
Qed.

(** The sort with a comparison that does not panic on the data. *)
Lemma insertBack_pure_eq (lessM : A → A → res bool) x rp :
  (∀ y, y ∈ rp → lessM x y = Ok (lt x y)) →
  insertBack lessM x rp = Ok (insertBack_pure lt x rp).
Proof using Type.
  induction rp as [|y rp IH]; intros Hless; simpl; [done|].
  rewrite Hless by left. simpl. destruct (lt x y); [|done].
  rewrite IH; [done|]. intros z Hz. apply Hless. by right.
Qed.

Lemma insertionSort_pure_eq (lessM : A → A → res bool) data rp :
  (∀ x y, x ∈ data → y ∈ rp ++ data → lessM x y = Ok (lt x y)) →
  insertionSort lessM data rp = Ok (insertionSort_pure lt data rp).
Proof using Type.
  clear lt_irrefl lt_trans lt_negtrans.
  revert rp. induction data as [|x data IH]; intros rp Hless; simpl; [done|].
  rewrite (insertBack_pure_eq lessM x rp).
  2:{ intros y Hy. apply Hless; [left|]. apply elem_of_app. by left. }
  simpl. apply IH. intros a b Ha Hb. apply Hless; [by right|].
  apply elem_of_app in Hb as [Hb|Hb].
  - rewrite insertBack_pure_perm in Hb.
    apply elem_of_cons in Hb as [->|Hb]; set_solver.
  - set_solver.
Qed.
(** A list has one stable sorted arrangement: whichever stable sort the
    library runs, its result is the one of the insertion sort. *)
Lemma stable_sort_unique l1 l2 :
  StronglySorted (λ a b, lt b a = false) l1 →
  StronglySorted (λ a b, lt b a = false) l2 →
  (∀ n, filter (λ m, lt n m = false ∧ lt m n = false) l1
        = filter (λ m, lt n m = false ∧ lt m n = false) l2) →
  l1 = l2.
Proof using lt_irrefl.
  clear lt_trans lt_negtrans.
  intros Hs1. revert l2. induction Hs1 as [|x l1 Hs1 IH Hx]; intros l2 Hs2 Hf.
  - destruct l2 as [|y l2]; [done|]. specialize (Hf y).
    rewrite filter_nil, filter_cons_True in Hf by (by rewrite lt_irrefl). done.
  - destruct Hs2 as [|y l2 Hs2 Hy].
    { specialize (Hf x).
      rewrite filter_nil, filter_cons_True in Hf by (by rewrite lt_irrefl). done. }
    rewrite Forall_forall in Hx, Hy.
    assert (Hxy : lt x y = false).
    { assert (Hin : x ∈ y :: l2).
      { pose proof (Hf x) as Hfx.
        rewrite (filter_cons_True _ x l1) in Hfx by (by rewrite lt_irrefl).
        assert (Hin : x ∈ filter (λ m, lt x m = false ∧ lt m x = false) (y :: l2))
          by (rewrite <-Hfx; left).
        by apply list_elem_of_filter in Hin as [_ ?]. }
      apply elem_of_cons in Hin as [->|Hin]; [apply lt_irrefl|by apply Hy]. }
    assert (Hyx : lt y x = false).
    { assert (Hin : y ∈ x :: l1).
      { pose proof (Hf y) as Hfy.
        rewrite (filter_cons_True _ y l2) in Hfy by (by rewrite lt_irrefl).
        assert (Hin : y ∈ filter (λ m, lt y m = false ∧ lt m y = false) (x :: l1))
          by (rewrite Hfy; left).
        by apply list_elem_of_filter in Hin as [_ ?]. }
      apply elem_of_cons in Hin as [->|Hin]; [apply lt_irrefl|by apply Hx]. }
    assert (x = y) as <-.
    { pose proof (Hf x) as Hfx.
      rewrite (filter_cons_True _ x l1), (filter_cons_True _ y l2) in Hfx
        by (by rewrite ?lt_irrefl).
      congruence. }
    f_equal. apply IH; [done|]. intros n. specialize (Hf n).
    destruct (decide (lt n x = false ∧ lt x n = false)) as [Hn|Hn].
    + rewrite !filter_cons_True in Hf by done. congruence.
    + by rewrite !filter_cons_False in Hf by done.
Qed.
End stable_sort.

Lemma StronglySorted_lookup {A} (R : relation A) (l : list A) (i j : nat) (a b : A) :
  StronglySorted R l → (i < j)%nat → l !! i = Some a → l !! j = Some b → R a b.
Proof.
  intros Hl. revert i j. induction Hl as [|x l Hl IH Hx]; intros i j Hij Hi Hj; [done|].
  destruct j as [|j]; [lia|]. simpl in Hj. destruct i as [|i]; simpl in Hi.
  - injection Hi as ->. rewrite Forall_forall in Hx. apply Hx.
    by eapply list_elem_of_lookup_2.
  - apply (IH i j); [lia|done..].
Qed.

(** ** The ranking of [focusExisting] *)

Lemma less_lessb idx n0 n1 :
  is_Some (n_Visible n0) → is_Some (n_Visible n1) →
  less idx n0 n1 = Ok (lessb idx n0 n1).
Proof.
  intros [v0 H0] [v1 H1]. unfold less, lessb, visible. rewrite H0, H1. simpl.
  destruct (negb (eqb v0 v1)); [done|].
  destruct (idx !! n_ID n0) as [i0|], (idx !! n_ID n1) as [i1|]; simpl;
    repeat case_bool_decide; simpl; try done;
    by match goal with H : ¬ is_Some _ |- _ => destruct H; eauto
                     | H : is_Some None |- _ => destruct H end.
Qed.

Lemma lessb_irrefl idx x : lessb idx x x = false.
Proof.
  unfold lessb. rewrite eqb_reflx. simpl.
  destruct (idx !! n_ID x); [|done]. apply bool_decide_eq_false. lia.
Qed.

Lemma lessb_trans idx x y z :
  lessb idx x y = true → lessb idx y z = true → lessb idx x z = true.
Proof.
  unfold lessb.
  destruct (visible x), (visible y), (visible z); simpl; try done;
    destruct (idx !! n_ID x), (idx !! n_ID y), (idx !! n_ID z); simpl; try done;
    rewrite !bool_decide_eq_true; lia.
Qed.

Lemma lessb_negtrans idx x y z :
  lessb idx x z = true → lessb idx x y = true ∨ lessb idx y z = true.
Proof.
  unfold lessb.
  destruct (visible x), (visible y), (visible z); simpl; try done; eauto;
    destruct (idx !! n_ID x), (idx !! n_ID y), (idx !! n_ID z); simpl; try done; eauto;
    rewrite !bool_decide_eq_true; lia.
Qed.

(** What it means that [b] does not rank before [a]. *)
Lemma lessb_false idx a b :
  lessb idx b a = false →
  (visible b = true → visible a = true) ∧
  (visible a = visible b →
     (is_Some (idx !! n_ID b) → is_Some (idx !! n_ID a)) ∧
     (∀ ia ib, idx !! n_ID a = Some ia → idx !! n_ID b = Some ib → (ia ≤ ib)%nat)).
Proof.
  unfold lessb.
  destruct (visible a), (visible b); simpl; try done;
    destruct (idx !! n_ID a), (idx !! n_ID b); simpl; try done;
    rewrite ?bool_decide_eq_false; intros H;
    (split; [done|]); intros _; (split; [by eauto|]); intros ia ib; intros; simplify_eq; lia.
Qed.

Lemma tie_no_less idx n a b :
  tie idx n a → tie idx n b → lessb idx a b = false.
Proof.
  unfold tie. intros [Hna Han]%andb_prop_elim [Hnb Hbn]%andb_prop_elim.
  apply negb_prop_elim, Is_true_false in Hna, Han, Hnb, Hbn.
  eapply (tie_class (lessb idx)); eauto using lessb_negtrans.
Qed.

Lemma SortStableFunc_pure idx matches :
  Forall (λ n, is_Some (n_Visible n)) matches →
  SortStableFunc matches (less idx) = Ok (insertionSort_pure (lessb idx) matches []).
Proof.
  intros Hvis. unfold SortStableFunc. apply insertionSort_pure_eq.
  intros x y Hx Hy. rewrite Forall_forall in Hvis. apply less_lessb; by apply Hvis.
Qed.

(** The comparison on a node without the flag. *)
Lemma less_noVisible_l idx x y : Cli.noVisible x → less idx x y = Panic nilDeref.
Proof. unfold Cli.noVisible, less. by intros ->. Qed.

Lemma less_noVisible_r idx x y : Cli.noVisible y → less idx x y = Panic nilDeref.
Proof. unfold Cli.noVisible, less. intros ->. by destruct (n_Visible x). Qed.

(** Once the sorted prefix is not empty, an element without the flag
    stops the sort at the comparison that reads it. *)
Lemma insertionSort_panics_later idx data rp :
  rp ≠ [] → Forall (λ n, is_Some (n_Visible n)) rp → Exists Cli.noVisible data →
  insertionSort (less idx) data rp = Panic nilDeref.
Proof.
  revert rp. induction data as [|x data IH]; intros rp Hne Hrp Hex.
  { by apply Exists_nil in Hex. }
  cbn [insertionSort]. destruct (decide (Cli.noVisible x)) as [Hx|Hx].
  - destruct rp as [|y rp]; [done|]. cbn [insertBack].
    by rewrite less_noVisible_l.
  - apply Exists_cons in Hex as [?|Hex]; [done|].
    assert (Hvx : is_Some (n_Visible x)).
    { unfold Cli.noVisible in Hx. by destruct (n_Visible x); [eexists|]. }
    rewrite (insertBack_pure_eq (lessb idx) (less idx) x rp).
    2:{ intros y Hy. rewrite Forall_forall in Hrp. apply less_lessb; [done|by apply Hrp]. }
    cbn [mbind res_bind]. apply IH; [| |done].
    + intros Hnil. pose proof (insertBack_pure_perm (lessb idx) x rp) as Hp.
      rewrite Hnil in Hp. by apply Permutation_nil_cons in Hp.
    + rewrite (insertBack_pure_perm (lessb idx) x rp). by constructor.
Qed.

Lemma SortStableFunc_cases idx matches :
  SortStableFunc matches (less idx)
  = if decide ((2 ≤ length matches)%nat ∧ Exists Cli.noVisible matches)
    then Panic nilDeref
    else Ok (insertionSort_pure (lessb idx) matches []).
Proof.
  case_decide as Hc.
  - destruct Hc as [Hlen Hex]. unfold SortStableFunc.
    destruct matches as [|x [|y data]]; simpl in Hlen; [lia..|].
    cbn [insertionSort insertBack mbind res_bind].
    destruct (decide (Cli.noVisible x)) as [Hx|Hx].
    + by rewrite less_noVisible_r.
    + apply Exists_cons in Hex as [?|Hex]; [done|].
      change (insertionSort (less idx) (y :: data) [x] = Panic nilDeref).
      apply insertionSort_panics_later; [done| |done].
      constructor; [|done]. unfold Cli.noVisible in Hx. by destruct (n_Visible x); [eexists|].
  - destruct matches as [|x [|y data]]; [done..|].
    apply SortStableFunc_pure. apply Forall_forall. intros n Hn.
    destruct (n_Visible n) eqn:Hv; [by eexists|]. destruct Hc. split; [simpl; lia|].
    apply Exists_exists. by exists n.
Qed.

(** The positions of the MRU list in the index. *)
Lemma mkIndex_from_absent (l : list MRU.listWindow) (k : nat) (m0 : gmap Z nat) (j : Z) :
  j ∉ MRU.ID <$> l →
  foldl (λ m iw, <[MRU.ID iw.2 := iw.1]> m) m0 (imap (λ i w, ((k + i)%nat, w)) l) !! j
  = m0 !! j.
Proof.
  revert k m0. induction l as [|x l IH]; intros k m0 Hj; [done|].
  rewrite fmap_cons in Hj. apply not_elem_of_cons in Hj as [Hne Hj].
  rewrite imap_cons. cbn [foldl].
  rewrite (imap_ext _ (λ i w, ((S k + i)%nat, w))) by (intros; simpl; f_equal; lia).
  rewrite IH by done. by rewrite lookup_insert_ne.
Qed.

Lemma mkIndex_from_lookup (l : list MRU.listWindow) (k : nat) (m0 : gmap Z nat)
    (i : nat) (w : MRU.listWindow) :
  NoDup (MRU.ID <$> l) → l !! i = Some w →
  foldl (λ m iw, <[MRU.ID iw.2 := iw.1]> m) m0 (imap (λ i w, ((k + i)%nat, w)) l)
    !! MRU.ID w
  = Some (k + i)%nat.
Proof.
  revert k m0 i. induction l as [|x l IH]; intros k m0 i Hnd Hi; [done|].
  rewrite fmap_cons in Hnd. apply NoDup_cons in Hnd as [Hx Hnd].
  rewrite imap_cons. cbn [foldl].
  rewrite (imap_ext _ (λ i w, ((S k + i)%nat, w))) by (intros; simpl; f_equal; lia).
  destruct i as [|i]; simpl in Hi.
  - injection Hi as ->. rewrite mkIndex_from_absent by done.
    by rewrite lookup_insert_eq.
  - rewrite (IH (S k) _ i) by done. f_equal. lia.
Qed.

(** Without duplicate ids, [idToMRUIdx] maps an id to its position in the
    MRU list, and knows no other id. *)
Lemma mkIndex_lookup (mruList : list MRU.listWindow) (i : nat) (w : MRU.listWindow) :
  NoDup (MRU.ID <$> mruList) → mruList !! i = Some w →
  mkIndex mruList !! MRU.ID w = Some i.
Proof. intros Hnd Hi. by apply (mkIndex_from_lookup mruList 0 ∅ i w). Qed.

Lemma mkIndex_absent (mruList : list MRU.listWindow) (j : Z) :
  j ∉ MRU.ID <$> mruList → mkIndex mruList !! j = None.
Proof. intros Hj. unfold mkIndex. by rewrite (mkIndex_from_absent mruList 0 ∅ j). Qed.

(** A container without a [Visible] flag among the matches makes the
    comparison panic. *)
Example ranking_panics_without_Visible :
  SortStableFunc
    [MkNode 2 2 "" NodeCon None None false [] []; example_window 10 true]
    (less ∅)
  = Panic nilDeref.
Proof. reflexivity. Qed.

(** The example of the claim. *)
Example ranking_example :
  n_ID <$> insertionSort_pure (lessb (mkIndex example_mruList)) example_matches []
  = [12; 11; 10].
Proof. by vm_compute. Qed.

(** C4. The comparison of [focusExisting] reads the [Visible] flag of both
    nodes without a nil check.  Whenever the sort returns, its result is
    the ranking of the claim: a permutation of the matches in which a
    visible window comes before every window that is not visible; among
    windows of equal visibility one that is in the MRU index comes before
    one that is not, and of two in the index the one with the smaller
    position comes first; windows that tie keep the order of the tree; and
    the first window of the sorted list is the one that is focused.  The
    sort returns when every match has the flag.  With two matches or more
    of which one has no flag, the sort, and [focusExisting] with it,
    panics with a nil dereference. *)
Theorem focusExisting_ranking_unless_panic idx matches :
  (∀ sorted,
     SortStableFunc matches (less idx) = Ok sorted →
     sorted ≡ₚ matches ∧
     (∀ i j a b, (i < j)%nat → sorted !! i = Some a → sorted !! j = Some b →
        (visible b = true → visible a = true) ∧
        (visible a = visible b →
           (is_Some (idx !! n_ID b) → is_Some (idx !! n_ID a)) ∧
           (∀ ia ib, idx !! n_ID a = Some ia → idx !! n_ID b = Some ib →
                     (ia ≤ ib)%nat))) ∧
     (∀ n, filter (λ m, tie idx n m) sorted = filter (λ m, tie idx n m) matches) ∧
     (∀ run root pick,
        treeSelect root pick = matches →
        focusExisting run root idx pick
        = match sorted with
          | [] => Nothing
          | n :: _ => focusCon run (n_ID n)
          end)) ∧
  (Forall (λ n, is_Some (n_Visible n)) matches →
   ∃ sorted, SortStableFunc matches (less idx) = Ok sorted) ∧
  ((2 ≤ length matches)%nat → Exists (λ n, n_Visible n = None) matches →
   SortStableFunc matches (less idx) = Panic nilDeref ∧
   ∀ run root pick,
     treeSelect root pick = matches →
     focusExisting run root idx pick = Panicked nilDeref).
Proof.
  split_and!.
  - intros sorted Hsort. pose proof Hsort as Hcases.
    rewrite SortStableFunc_cases in Hcases. case_decide as Hc; [done|].
    injection Hcases as <-.
    pose proof (insertionSort_pure_perm (lessb idx) matches []) as Hperm.
    rewrite reverse_nil, app_nil_l in Hperm.
    split_and!; [done| | |].
    + intros i j a b Hij Hi Hj. apply lessb_false.
      eapply (StronglySorted_lookup (λ a b, lessb idx b a = false)); [|done..].
      apply insertionSort_pure_sorted;
        [apply lessb_irrefl|apply lessb_trans|apply lessb_negtrans|constructor].
    + intros n.
      rewrite (insertionSort_pure_stable (lessb idx) (λ m, tie idx n m)).
      * by rewrite reverse_nil, app_nil_l.
      * intros a b. apply tie_no_less.
    + intros run root pick Hsel. unfold focusExisting. rewrite Hsel, Hsort.
      destruct matches as [|m matches'].
      * by rewrite bool_decide_eq_true_2.
      * rewrite bool_decide_eq_false_2 by done.
        destruct (insertionSort_pure (lessb idx) (m :: matches') []) as [|n sorted] eqn:Hs;
          [|done].
        by apply Permutation_nil_cons in Hperm.
  - intros Hvis. eexists. by apply SortStableFunc_pure.
  - intros Hlen Hex.
    assert (Hp : SortStableFunc matches (less idx) = Panic nilDeref).
    { rewrite SortStableFunc_cases. by rewrite decide_True. }
    split; [done|]. intros run root pick Hsel.
    unfold focusExisting. rewrite Hsel, Hp.
    rewrite bool_decide_eq_false_2; [done|]. lia.
Qed.

End TreeFacts.

(** * Facts about the lock file *)

Module LockFacts.
Import Lock.

Lemma Flock_EX_NB w path :
  Flock w path (Z.lor LOCK_EX LOCK_NB)
  = if bool_decide (is_Some (locks w !! path)) then Errno "EWOULDBLOCK" else Acquired.
Proof. unfold Flock. simpl. by case_bool_decide. Qed.

(** C9. The daemon asks for an exclusive lock without waiting: the start
    never blocks in [flock]; when the lock on the lock file under
    [$XDG_RUNTIME_DIR] is held, the start ends at once with the message
    that another instance may be running, and otherwise it holds the lock. *)
Theorem cmdDaemon_lock_fails_at_once Join w dir :
  cmdDaemon_lock Join w dir ≠ Blocked ∧
  (dir ≠ "" → can_open w (Join dir "swayctrl.lock") = true →
   (is_Some (locks w !! Join dir "swayctrl.lock") →
    cmdDaemon_lock Join w dir = Fatal "Lockfile locked (is another instance running?)") ∧
   (locks w !! Join dir "swayctrl.lock" = None →
    cmdDaemon_lock Join w dir = Locked (Join dir "swayctrl.lock"))).
Proof.
  unfold cmdDaemon_lock, lockFile. split.
  - case_decide; [done|]. destruct (can_open w _); [|done].
    rewrite Flock_EX_NB. by case_bool_decide.
  - intros Hdir Hopen. rewrite decide_False, Hopen, Flock_EX_NB by done. split.
    + intros Hheld. by rewrite bool_decide_eq_true_2.
    + intros Hfree. rewrite bool_decide_eq_false_2; [done|].
      rewrite Hfree. by intros [? ?].
Qed.

End LockFacts.

(** * More facts about the MRU list *)

Module LinksFacts.
Import MRU Links MRUFacts.

#[local] Arguments seg : simpl never.

Lemma chain_seg fuel h pv cur ps :
  seg h pv cur ps None → (length ps ≤ fuel)%nat → chain fuel h cur = ps.
Proof.
  revert fuel pv cur. induction ps as [|p ps IH]; intros fuel pv cur Hseg Hlen.
  - unfold seg in Hseg. subst cur. by destruct fuel.
  - destruct Hseg as [-> (x & Hx & _ & Hseg)]. fold seg in Hseg.
    destruct fuel as [|fuel]; simpl in *; [lia|].
    rewrite Hx. f_equal. eapply IH; [done|lia].
Qed.

Lemma last_ptr_snoc pv ps q : last_ptr pv (ps ++ [q]) = Some q.
Proof. unfold last_ptr. by rewrite last_snoc. Qed.

Lemma chain_back_seg fuel h pv cur ps nx :
  seg h pv cur ps nx → (length ps ≤ fuel)%nat →
  chain_back fuel h (last_ptr pv ps)
  = reverse ps ++ chain_back (fuel - length ps) h pv.
Proof.
  revert fuel nx. induction ps as [|q ps IH] using rev_ind; intros fuel nx Hseg Hlen.
  - unfold last_ptr. simpl. by rewrite Nat.sub_0_r.
  - apply seg_app in Hseg as (mid & H1 & H2).
    destruct H2 as [-> (x & Hx & Hpv & _)].
    rewrite last_ptr_snoc, reverse_snoc. rewrite length_app in Hlen |- *. simpl in *.
    destruct fuel as [|fuel]; [lia|]. cbn [chain_back]. rewrite Hx, Hpv.
    rewrite (IH fuel (Some q)) by (done || lia).
    simpl. do 3 f_equal. lia.
Qed.

Lemma linked_spec s ps : Inv s ps → linked s = ps.
Proof.
  intros HI. unfold linked. eapply chain_seg; [apply HI|by apply Inv_length].
Qed.

Lemma chain_back_None fuel h : chain_back fuel h None = [].
Proof. by destruct fuel. Qed.

Lemma linked_back_spec s ps : Inv s ps → linked_back s = reverse ps.
Proof.
  intros HI. unfold linked_back. rewrite (linked_spec s ps HI).
  pose proof (chain_back_seg (size (heap s)) (heap s) None _ ps None
                (inv_seg _ _ HI) (Inv_length _ _ HI)) as Hback.
  rewrite chain_back_None, app_nil_r in Hback. rewrite <-Hback.
  f_equal. unfold last_ptr. by destruct (last ps).
Qed.

(** X2. After any sequence of calls the [prev] pointers mirror the [next]
    pointers: walking back from the last record gives the objects of the
    walk from [l.head] in reverse, and these objects are the ones that
    [all] reports. *)
Theorem prev_links_mirror_next_links cs :
  ∃ s, after cs = Ok s ∧
       linked_back s = reverse (linked s) ∧
       view (heap s) <$> linked s = contents s.
Proof.
  destruct (after_contents cs) as (s & ps & Hs & HI & _).
  exists s. split_and!; [done| |].
  - by rewrite (linked_back_spec s ps), (linked_spec s ps).
  - by rewrite (linked_spec s ps), (contents_spec s ps).
Qed.

(** The index and the chain hold the same ids. *)
Lemma Inv_dom_index s ps :
  Inv s ps → dom (l_m (lst s)) = list_to_set (ID <$> (view (heap s) <$> ps)).
Proof.
  intros HI. apply set_eq. intros i.
  rewrite elem_of_dom, elem_of_list_to_set.
  destruct (decide (i ∈ ID <$> (view (heap s) <$> ps))) as [Hi|Hi].
  - split; [done|]. intros _.
    destruct (l_m (lst s) !! i) eqn:Hm; [done|].
    by apply (Inv_index_ids s ps i HI) in Hm.
  - apply (Inv_index_ids s ps i HI) in Hi as Hm. rewrite Hm.
    split; [by intros [? ?]|done].
Qed.

(** X3. After any sequence of calls the map [l.m] holds exactly the ids of
    the linked records: an id is a key if and only if it is listed, its
    entry points to a linked record that carries this id, the map has as
    many entries as the list has records, and [l.head] is [nil] exactly
    when the list is empty. *)
Theorem index_holds_the_linked_ids cs :
  ∃ s, after cs = Ok s ∧
       (∀ i, is_Some (l_m (lst s) !! i) ↔ i ∈ ID <$> contents s) ∧
       (∀ i p, l_m (lst s) !! i = Some p →
               p ∈ linked s ∧ ∃ e, heap s !! p = Some e ∧ elt_id e = i) ∧
       size (l_m (lst s)) = length (contents s) ∧
       (l_head (lst s) = None ↔ contents s = []).
Proof.
  destruct (after_contents cs) as (s & ps & Hs & HI & _).
  exists s. rewrite (contents_spec s ps HI), (linked_spec s ps HI).
  split_and!; [done| | | |].
  - intros i. rewrite <-elem_of_dom, (Inv_dom_index s ps HI).
    apply elem_of_list_to_set.
  - intros i p. apply (inv_index _ _ HI).
  - rewrite <-size_dom, (Inv_dom_index s ps HI).
    rewrite size_list_to_set by (by apply Inv_NoDup_ids).
    by rewrite !length_fmap.
  - rewrite (Inv_head s ps HI). destruct ps; naive_solver.
Qed.

(** A second [bringFront] with the same arguments finds the record at the
    head with the [appID] it has. *)
Lemma bringFront_again h l p e id a :
  l_m l !! id = Some p → l_head l = Some p → h !! p = Some e → elt_appID e = a →
  bringFront id a (State h l) = Ok (tt, State h l).
Proof.
  intros Hm Hhd He Ha. unfold bringFront.
  rewrite bind_mapGet. simpl. rewrite Hm, bind_ret.
  unfold setAppID. rewrite (bind_store p _ e) by done.
  rewrite bind_getHead. simpl. rewrite Hhd, decide_True by done.
  assert (set_appID a e = e) as -> by (destruct e; simpl in *; by subst).
  by rewrite insert_id.
Qed.

(** X4. Calling [bringFront] a second time with the same arguments, and
    calling [delete] a second time with the same id, leaves the list,
    its map and every record exactly as the first call left them. *)
Theorem repeated_call_changes_nothing cs id appID :
  ∃ s s1 s2,
    after cs = Ok s ∧
    bringFront id appID s = Ok (tt, s1) ∧ bringFront id appID s1 = Ok (tt, s1) ∧
    MRU.delete id s = Ok (tt, s2) ∧ MRU.delete id s2 = Ok (tt, s2).
Proof.
  destruct (after_contents cs) as (s & ps & Hs & HI & _).
  destruct (bringFront_spec s ps id appID HI) as (s1 & p & ps1 & Hrun & HI1 & Hm & Hv).
  destruct (delete_spec s ps id HI) as (s2 & ps2 & Hdel & HI2 & Hm2 & _).
  exists s, s1, s2. split_and!; [done|done| |done|by apply delete_unknown].
  destruct (Inv_lookup s1 (p :: ps1) p HI1) as [e He]; [left|].
  rewrite fmap_cons, (view_lookup _ p e) in Hv by done.
  pose proof (Inv_head _ _ HI1) as Hhd.
  destruct s1 as [h1 l1]. simpl in *.
  apply (bringFront_again h1 l1 p e); [done|done|done|congruence].
Qed.

(** ** The order of the list *)

Lemma listed_before_others a b i ws :
  listed_before a b (others i ws) → listed_before a b ws ∧ ID a ≠ i ∧ ID b ≠ i.
Proof.
  unfold listed_before, others. intros Hsub. split.
  - etrans; [exact Hsub|]. apply sublist_filter.
  - assert (Ha : a ∈ filter (λ w, ID w ≠ i) ws)
      by (eapply elem_of_sublist; [|exact Hsub]; set_solver).
    assert (Hb : b ∈ filter (λ w, ID w ≠ i) ws)
      by (eapply elem_of_sublist; [|exact Hsub]; set_solver).
    apply list_elem_of_filter in Ha as [? _], Hb as [? _]. done.
Qed.

(** The last call on the id of a listed record is the [bringFront] that
    gave it its [appID]. *)
Lemma abs_calls_last_call cs a :
  a ∈ abs_calls cs →
  ∃ cs1 cs2, cs = cs1 ++ BringFront (ID a) (AppID a) :: cs2 ∧
             Forall (λ c, call_id c ≠ ID a) cs2.
Proof.
  induction cs as [|c cs IH] using rev_ind; intros Ha.
  - by apply elem_of_nil in Ha.
  - rewrite abs_calls_snoc in Ha. destruct c as [k x|k]; simpl in Ha.
    + apply elem_of_cons in Ha as [->|Ha].
      * exists cs, []. by split.
      * apply list_elem_of_filter in Ha as [Hk Ha].
        destruct (IH Ha) as (cs1 & cs2 & -> & Hcs2).
        exists cs1, (cs2 ++ [BringFront k x]). split; [by rewrite <-app_assoc|].
        apply Forall_app. split; [done|]. repeat constructor. simpl. congruence.
    + apply list_elem_of_filter in Ha as [Hk Ha].
      destruct (IH Ha) as (cs1 & cs2 & -> & Hcs2).
      exists cs1, (cs2 ++ [Delete k]). split; [by rewrite <-app_assoc|].
      apply Forall_app. split; [done|]. repeat constructor. simpl. congruence.
Qed.

Lemma abs_calls_order cs a b :
  listed_before a b (abs_calls cs) →
  ∃ cs1 cs2 cs3,
    cs = cs1 ++ BringFront (ID b) (AppID b) :: cs2
             ++ BringFront (ID a) (AppID a) :: cs3 ∧
    Forall (λ c, call_id c ≠ ID b) cs2 ∧
    Forall (λ c, call_id c ≠ ID b ∧ call_id c ≠ ID a) cs3 ∧
    ID a ≠ ID b.
Proof.
  induction cs as [|c cs IH] using rev_ind; intros Hab.
  - unfold listed_before in Hab. by apply sublist_nil_r in Hab.
  - rewrite abs_calls_snoc in Hab.
    assert (Hkeep : ∀ k, listed_before a b (others k (abs_calls cs)) →
              ∀ c', call_id c' = k →
              ∃ cs1 cs2 cs3,
                cs ++ [c'] = cs1 ++ BringFront (ID b) (AppID b) :: cs2
                             ++ BringFront (ID a) (AppID a) :: cs3 ∧
                Forall (λ c, call_id c ≠ ID b) cs2 ∧
                Forall (λ c, call_id c ≠ ID b ∧ call_id c ≠ ID a) cs3 ∧
                ID a ≠ ID b).
    { intros k Hk c' Hc'.
      apply listed_before_others in Hk as (Hk & Hak & Hbk).
      destruct (IH Hk) as (cs1 & cs2 & cs3 & -> & H2 & H3 & Hne).
      exists cs1, cs2, (cs3 ++ [c']). split_and!; [|done| |done].
      - by repeat (rewrite <-app_assoc; simpl).
      - apply Forall_app. split; [done|]. repeat constructor; congruence. }
    destruct c as [k x|k]; simpl in Hab; [|by apply (Hkeep k)].
    unfold listed_before in Hab.
    apply sublist_cons_r in Hab as [Hab|(l' & [= -> <-] & Hb)]; [by apply (Hkeep k)|].
    assert (Hb' : b ∈ others k (abs_calls cs))
      by (eapply elem_of_sublist; [|exact Hb]; left).
    apply list_elem_of_filter in Hb' as [Hbk Hb'].
    destruct (abs_calls_last_call cs b Hb') as (cs1 & cs2 & -> & Hcs2).
    exists cs1, cs2, []. simpl in *. split_and!; [by rewrite <-app_assoc|done|done|done].
Qed.

(** X1. The list is in the order of the last focus: when a record [a] is
    listed before a record [b], the calls contain the [bringFront] that
    made [b], later the [bringFront] that made [a], no call on the id of
    [b] between the two, and no call on either id after them. *)
Theorem list_is_in_order_of_last_focus cs :
  ∃ s, after cs = Ok s ∧
    ∀ a b, listed_before a b (contents s) →
      ∃ cs1 cs2 cs3,
        cs = cs1 ++ BringFront (ID b) (AppID b) :: cs2
                 ++ BringFront (ID a) (AppID a) :: cs3 ∧
        Forall (λ c, call_id c ≠ ID b) cs2 ∧
        Forall (λ c, call_id c ≠ ID b ∧ call_id c ≠ ID a) cs3.
Proof.
  destruct (after_contents cs) as (s & ps & Hs & HI & Hc).
  exists s. split; [done|]. intros a b Hab. rewrite Hc in Hab.
  destruct (abs_calls_order cs a b Hab) as (cs1 & cs2 & cs3 & ? & ? & ? & _).
  by exists cs1, cs2, cs3.
Qed.

End LinksFacts.

(** * More facts about the daemon *)

Module ServiceFacts.
Import MRU Sway Daemon Tree Service MRUFacts DaemonFacts.

Lemma Window_unhandled verbose e s : ¬ handled e → Window verbose e s = Ok (tt, s).
Proof.
  unfold handled, Window. intros He.
  rewrite decide_False by tauto. by rewrite decide_False by tauto.
Qed.

Lemma Windows_filter verbose es s :
  Windows verbose es s = Windows verbose (filter handled es) s.
Proof.
  revert s. induction es as [|e es IH]; intros s; [done|].
  destruct (decide (handled e)) as [He|He].
  - rewrite filter_cons_True by done. cbn [Windows]. unfold mbind, M_bind.
    destruct (Window verbose e s) as [[[] s1]|msg]; [apply IH|done].
  - rewrite filter_cons_False by done. cbn [Windows]. unfold mbind, M_bind.
    rewrite Window_unhandled by done. apply IH.
Qed.

(** X5. [daemonHandler.Window] acts on focus and close events only: the
    list, and the answer to a query, are the same as if every other
    event had not arrived. *)
Theorem other_events_leave_the_list_alone verbose es :
  list_after verbose es = list_after verbose (filter handled es) ∧
  query_after verbose es = query_after verbose (filter handled es).
Proof.
  unfold list_after, query_after, mbind, M_bind.
  by rewrite <-!Windows_filter.
Qed.

Lemma Windows_app verbose es1 es2 s :
  Windows verbose (es1 ++ es2) s
  = (Windows verbose es1 ≫= λ _, Windows verbose es2) s.
Proof.
  revert s. induction es1 as [|e es1 IH]; intros s; [reflexivity|].
  cbn [Windows app]. rewrite bind_assoc. unfold mbind, M_bind.
  destruct (Window verbose e s) as [[[] s1]|msg]; [|done]. apply IH.
Qed.

(** One event, with and without logging. *)
Lemma Window_quiet_inv e s ps :
  Inv s ps → ∃ s1 ps1, Window false e s = Ok (tt, s1) ∧ Inv s1 ps1.
Proof.
  intros HI. unfold Window.
  destruct (decide (Change e = WindowFocus)); [|destruct (decide (Change e = WindowClose))].
  - destruct (bringFront_spec s ps (n_ID (Container e)) (focusAppID (Container e)) HI)
      as (s1 & p & ps1 & Hrun & HI1 & _).
    exists s1, (p :: ps1). split; [|done]. unfold mbind, M_bind. by rewrite Hrun.
  - destruct (delete_spec s ps (n_ID (Container e)) HI) as (s1 & ps1 & Hrun & HI1 & _).
    exists s1, ps1. split; [|done]. unfold mbind, M_bind. by rewrite Hrun.
  - by exists s, ps.
Qed.

Lemma logList_verbose s ps :
  Inv s ps →
  logList true s = if decide (length ps ≤ 100)%nat then Ok (tt, s) else Panic "boom".
Proof.
  intros HI. unfold logList, mbind, M_bind. rewrite (all_spec s ps HI).
  by destruct (decide (length ps ≤ 100)%nat).
Qed.

Lemma Window_verbose e s s1 ps1 :
  Window false e s = Ok (tt, s1) → Inv s1 ps1 →
  Window true e s
  = if decide (handled e ∧ 100 < length ps1)%nat then Panic "boom" else Ok (tt, s1).
Proof.
  unfold Window, handled. intros Hrun HI1.
  destruct (decide (Change e = WindowFocus)) as [Hf|Hf];
    [|destruct (decide (Change e = WindowClose)) as [Hc|Hc]].
  - apply bind_Ok in Hrun as ([] & s' & Hcall & [= ->]).
    unfold mbind, M_bind. rewrite Hcall, (logList_verbose s1 ps1 HI1).
    destruct (decide (length ps1 ≤ 100)%nat).
    + rewrite decide_False by lia. done.
    + rewrite decide_True; [done|]. split; [by left|lia].
  - apply bind_Ok in Hrun as ([] & s' & Hcall & [= ->]).
    unfold mbind, M_bind. rewrite Hcall, (logList_verbose s1 ps1 HI1).
    destruct (decide (length ps1 ≤ 100)%nat).
    + rewrite decide_False by lia. done.
    + rewrite decide_True; [done|]. split; [by right|lia].
  - rewrite decide_False by tauto. done.
Qed.

Lemma Windows_verbose es s ps s' :
  Inv s ps → Windows false es s = Ok (tt, s') →
  Windows true es s = Ok (tt, s') ∨ Windows true es s = Panic "boom".
Proof.
  revert s ps. induction es as [|e es IH]; intros s ps HI Hrun; [by left|].
  cbn [Windows] in *. apply bind_Ok in Hrun as ([] & s1 & He & Hes).
  destruct (Window_quiet_inv e s ps HI) as (s1' & ps1 & He' & HI1).
  assert (s1' = s1) as -> by congruence.
  unfold mbind, M_bind. rewrite (Window_verbose e s s1 ps1 He HI1).
  case_decide; [by right|]. by apply (IH s1 ps1).
Qed.

Lemma list_after_quiet es : ∃ s ps, list_after false es = Ok s ∧ Inv s ps ∧
                                    Windows false es newList = Ok (tt, s) ∧
                                    contents s = abs_calls (calls_of es).
Proof.
  destruct (Windows_quiet es newList [] Inv_newList) as (s & Hrun).
  pose proof (Windows_calls false es newList s Hrun) as Hcalls.
  destruct (do_calls_spec (calls_of es) newList [] Inv_newList) as (s1 & ps & Hrun1 & HI & Hv).
  assert (s1 = s) as -> by congruence.
  exists s, ps. unfold list_after. rewrite Hrun. split_and!; [done..|].
  by rewrite (contents_spec s ps).
Qed.

(** X6. Without [-v] no sequence of events makes the handler panic; with
    [-v] a run that does not panic leaves the same list; and with [-v] a
    focus or close event after which the list holds more than 100 records
    ends in the panic of [all], which the logging calls. *)
Theorem logging_panics_beyond_100_windows :
  (∀ es, is_ok (list_after false es) = true) ∧
  (∀ es s, list_after true es = Ok s → list_after false es = Ok s) ∧
  (∀ es e s, handled e → list_after false (es ++ [e]) = Ok s →
             (100 < length (contents s))%nat →
             list_after true (es ++ [e]) = Panic "boom").
Proof.
  split_and!.
  - intros es. by destruct (list_after_quiet es) as (s & ps & -> & _).
  - intros es s Hv. destruct (list_after_quiet es) as (s' & ps & Hq & _ & Hrun & _).
    unfold list_after in Hv.
    destruct (Windows_verbose es newList [] s' Inv_newList Hrun) as [H|H];
      rewrite H in Hv; [|done]. by injection Hv as <-.
  - intros es e s He Hq Hlen.
    destruct (list_after_quiet es) as (s0 & ps0 & _ & HI0 & Hrun0 & _).
    destruct (list_after_quiet (es ++ [e])) as (s' & ps & Hq' & HI & Hrun & _).
    assert (s' = s) as -> by congruence.
    rewrite (contents_spec s ps HI), length_fmap in Hlen.
    rewrite Windows_app in Hrun. apply bind_Ok in Hrun as ([] & s0' & Hrun0' & Hlast).
    assert (s0' = s0) as -> by congruence.
    cbn [Windows] in Hlast. apply bind_Ok in Hlast as ([] & s1 & Hlast & [= ->]).
    unfold list_after. rewrite Windows_app. unfold mbind at 1, M_bind.
    destruct (Windows_verbose es newList [] s0 Inv_newList Hrun0) as [H|H];
      rewrite H; [|done].
    cbn [Windows]. unfold mbind, M_bind.
    rewrite (Window_verbose e s0 s ps Hlast HI). by rewrite decide_True.
Qed.

(** What the daemon answers. *)
Lemma query_after_calls verbose es ws :
  query_after verbose es = Ok ws →
  ws = abs_calls (calls_of es) ∧ NoDup (ID <$> ws).
Proof.
  unfold query_after, handle. intros Hq.
  destruct ((Windows verbose es ≫= λ _, all) newList) as [[ws' s']|msg] eqn:Hrun; [|done].
  injection Hq as ->.
  apply bind_Ok in Hrun as ([] & s & Hrun & Hall).
  apply Windows_calls in Hrun.
  destruct (do_calls_spec (calls_of es) newList [] Inv_newList)
    as (s1 & ps & Hrun1 & HI & Hv).
  assert (s1 = s) as -> by congruence.
  rewrite (all_spec s ps HI) in Hall.
  destruct (decide (length ps ≤ 100)%nat); [|done]. injection Hall as <- _.
  split; [done|]. by apply Inv_NoDup_ids.
Qed.

End ServiceFacts.

(** * More facts about the commands *)

Module CliFacts.
Import MRU Sway Daemon Tree Service Cli MRUFacts DaemonFacts TreeFacts ServiceFacts.

(** ** [runCommand] *)

Lemma firstFailure_None i results :
  firstFailure i results = None ↔ Forall (λ res, Success res = true) results.
Proof.
  revert i. induction results as [|res rest IH]; intros i; simpl.
  - split; [constructor|done].
  - destruct (Success res) eqn:Hres.
    + rewrite IH. split; [by constructor|by inversion 1].
    + split; [done|]. inversion 1; congruence.
Qed.

Lemma firstFailure_Some i results err :
  firstFailure i results = Some err →
  ∃ k res, err = commandFailed (i + k) (Error res) ∧ results !! k = Some res ∧
           Success res = false ∧
           Forall (λ res, Success res = true) (take k results).
Proof.
  revert i. induction results as [|res rest IH]; intros i; simpl; [done|].
  destruct (Success res) eqn:Hres.
  - intros (k & res' & -> & Hk & Hfail & Hbefore)%IH.
    exists (S k), res'. split_and!; [f_equal; lia|done|done|by constructor].
  - intros [= <-]. exists 0%nat, res. split_and!; [f_equal; lia|done|done|constructor].
Qed.

(** X15. [runCommand] returns [nil] exactly when the client returned
    replies that are all successful; when the client returned replies and
    [runCommand] an error, the error names the index and the message of
    the first reply that is not successful. *)
Theorem runCommand_reports_the_first_failure reply :
  (runCommand reply = None ↔
     ∃ results, reply = Results results ∧ Forall (λ res, Success res = true) results) ∧
  (∀ results err,
     reply = Results results → runCommand reply = Some err →
     ∃ k res, err = commandFailed k (Error res) ∧ results !! k = Some res ∧
              Success res = false ∧
              Forall (λ res, Success res = true) (take k results)).
Proof.
  split.
  - destruct reply as [results|msg]; simpl.
    + rewrite firstFailure_None. naive_solver.
    + naive_solver.
  - intros results err -> Herr. simpl in Herr.
    by apply firstFailure_Some in Herr.
Qed.

(** ** The order of [treeSelect] *)

Lemma concat_filter_preorder (fn : Node → bool) (l : list Node) :
  filter fn (concat (preorder <$> l)) = concat ((λ n, treeSelect n fn) <$> l).
Proof.
  induction l as [|n l IH]; [done|].
  rewrite !fmap_cons. cbn [concat]. by rewrite filter_app, IH, treeSelect_filter.
Qed.

(** X16. [treeSelect] returns the nodes that satisfy [fn] in the order of
    [walkTree]: the node itself, then the selections of its floating
    nodes, then those of its tiled nodes, each in order. *)
Theorem treeSelect_in_walk_order root fn :
  treeSelect root fn = filter fn (preorder root) ∧
  treeSelect root fn
  = (if fn root then [root] else [])
    ++ concat ((λ n, treeSelect n fn) <$> n_FloatingNodes root)
    ++ concat ((λ n, treeSelect n fn) <$> n_Nodes root).
Proof.
  split; [apply treeSelect_filter|].
  rewrite treeSelect_filter. destruct root as [a i name t app v f ns fs].
  cbn [preorder n_Nodes n_FloatingNodes].
  rewrite <-!concat_filter_preorder, <-filter_app.
  set (root := MkNode a i name t app v f ns fs).
  destruct (fn root) eqn:Hfn.
  - by rewrite filter_cons_True by (by apply Is_true_true).
  - by rewrite filter_cons_False by (by apply Is_true_false).
Qed.

(** ** [launchAndFocus] *)

Lemma collectIDs_preorder root : collectIDs root = list_to_set (n_ID <$> preorder root).
Proof.
  unfold collectIDs. rewrite walkTree_preorder.
  assert (H : ∀ (l : list Node) (acc : gset Z),
             foldl (λ s n, {[n_ID n]} ∪ s) acc l = list_to_set (n_ID <$> l) ∪ acc).
  { induction l as [|n l IH]; intros acc; simpl; [set_solver|].
    rewrite IH. set_solver. }
  rewrite H. set_solver.
Qed.

(** What [newID] is after the nodes [l], from -1 on. *)
Lemma newID_found oldIDs (l : list Node) (r : Z) :
  foldl (λ acc n, newID_step oldIDs n acc) (-1) l = r →
  r = -1 ∨ ∃ n, n ∈ l ∧ n_ID n = r ∧ r ∉ oldIDs.
Proof.
  revert r. induction l as [|x l IH] using rev_ind; intros r Hr; [by left|].
  rewrite foldl_app in Hr. cbn [foldl] in Hr.
  specialize (IH _ eq_refl).
  set (r0 := foldl (λ acc n, newID_step oldIDs n acc) (-1) l) in *.
  unfold newID_step in Hr.
  destruct (decide (n_ID x ∈ oldIDs)) as [Hx|Hx]; [|case_decide]; subst r.
  - destruct IH as [IH|(n & Hn & Hid & Hnew)]; [by left|].
    right. exists n. split_and!; [set_solver|done..].
  - right. exists x. split_and!; [set_solver|done..].
  - destruct IH as [IH|(n & Hn & Hid & Hnew)]; [by left|].
    right. exists n. split_and!; [set_solver|done..].
Qed.

Lemma newID_least oldIDs (l : list Node) (r : Z) :
  (∀ n, n ∈ l → 0 ≤ n_ID n) →
  foldl (λ acc n, newID_step oldIDs n acc) (-1) l = r →
  (r = -1 ∧ ∀ n, n ∈ l → n_ID n ∈ oldIDs) ∨
  (0 ≤ r ∧ ∀ n, n ∈ l → n_ID n ∉ oldIDs → r ≤ n_ID n).
Proof.
  revert r. induction l as [|x l IH] using rev_ind; intros r Hpos Hr.
  - left. split; [done|]. intros n Hn. by apply elem_of_nil in Hn.
  - rewrite foldl_app in Hr. cbn [foldl] in Hr.
    assert (0 ≤ n_ID x) by (apply Hpos; set_solver).
    specialize (IH _ (λ n Hn, Hpos n (proj2 (elem_of_app _ _ _) (or_introl Hn))) eq_refl).
    set (r0 := foldl (λ acc n, newID_step oldIDs n acc) (-1) l) in *.
    unfold newID_step in Hr.
    destruct IH as [[Hr0 Hold]|[Hr0 Hleast]].
    + destruct (decide (n_ID x ∈ oldIDs)) as [Hx|Hx].
      * left. split; [congruence|].
        intros n [Hn| ->%list_elem_of_singleton]%elem_of_app; auto.
      * rewrite decide_True in Hr by (by left). subst r. right. split; [done|].
        intros n [Hn| ->%list_elem_of_singleton]%elem_of_app Hnew; [|lia].
        by apply Hold in Hn.
    + destruct (decide (n_ID x ∈ oldIDs)) as [Hx|Hx]; [|case_decide as Hlt]; subst r.
      * right. split; [done|].
        intros n [Hn| ->%list_elem_of_singleton]%elem_of_app Hnew; [by apply Hleast|done].
      * right. split; [done|].
        intros n [Hn| ->%list_elem_of_singleton]%elem_of_app Hnew; [|lia].
        specialize (Hleast n Hn Hnew). lia.
      * right. split; [done|].
        intros n [Hn| ->%list_elem_of_singleton]%elem_of_app Hnew; [by apply Hleast|lia].
Qed.

(** X11. On a tree whose ids are not negative, [getNewID] returns -1 when
    every id of the tree is among [oldIDs], and otherwise the least id of
    the tree that is not among them. *)
Theorem getNewID_is_the_least_new_id oldIDs root :
  (∀ n, n ∈ preorder root → 0 ≤ n_ID n) →
  (getNewID oldIDs root = -1 ∧ ∀ n, n ∈ preorder root → n_ID n ∈ oldIDs) ∨
  (0 ≤ getNewID oldIDs root ∧
   (∃ n, n ∈ preorder root ∧ n_ID n = getNewID oldIDs root ∧ n_ID n ∉ oldIDs) ∧
   ∀ n, n ∈ preorder root → n_ID n ∉ oldIDs → getNewID oldIDs root ≤ n_ID n).
Proof.
  intros Hpos. unfold getNewID. rewrite walkTree_preorder.
  destruct (newID_least oldIDs (preorder root) _ Hpos eq_refl) as [?|[Hr Hleast]];
    [by left|].
  right. split_and!; [done| |done].
  destruct (newID_found oldIDs (preorder root) _ eq_refl) as [Hm1|(n & Hn & Hid & Hnew)].
  - lia.
  - exists n. split_and!; [done..|]. by rewrite Hid.
Qed.

Lemma poll_Focused run oldIDs ticks id :
  poll run oldIDs ticks = Some (Focused id) →
  0 ≤ id ∧ (id ∉ oldIDs) ∧ run id = true ∧
  ∃ since tree n, (since, tree) ∈ ticks ∧ since ≤ deadline ∧
                  n ∈ preorder tree ∧ n_ID n = id.
Proof.
  induction ticks as [|[since tree] ticks IH]; cbn [poll]; [done|].
  destruct (deadline <? since) eqn:Hd; [done|]. apply Z.ltb_ge in Hd.
  destruct (getNewID oldIDs tree <? 0) eqn:Hneg.
  - intros (? & ? & ? & since' & tree' & n & Hin & ? & ? & ?)%IH.
    split_and!; [done..|]. exists since', tree', n. split_and!; [by right|done..].
  - apply Z.ltb_ge in Hneg. unfold focusCon.
    destruct (run (getNewID oldIDs tree)) eqn:Hrun; [|done]. intros [= <-].
    unfold getNewID in *. rewrite walkTree_preorder in *.
    destruct (newID_found oldIDs (preorder tree) _ eq_refl) as [Hm1|(n & Hn & Hid & Hnew)].
    { lia. }
    split_and!; [done..|]. exists since, tree, n. split_and!; [left|done..].
Qed.

(** X12. When [launchAndFocus] focuses a window, the command was started,
    and the id is not negative, is not an id of the tree read before the
    launch, and belongs to a node of a tree polled at a tick that came
    within 1200 ms. *)
Theorem launchAndFocus_focuses_only_a_new_window run root started ticks id :
  launchAndFocus run root started ticks = Some (Focused id) →
  started = true ∧ 0 ≤ id ∧ (id ∉ n_ID <$> preorder root) ∧
  ∃ since tree n, (since, tree) ∈ ticks ∧ since ≤ deadline ∧
                  n ∈ preorder tree ∧ n_ID n = id.
Proof.
  unfold launchAndFocus. destruct started; [|done].
  intros (? & Hnew & _ & ?)%poll_Focused. split_and!; [done..| |done].
  rewrite collectIDs_preorder in Hnew. by rewrite elem_of_list_to_set in Hnew.
Qed.

(** ** [cmdTree] *)

Section cmdTree.
Context (fmtInt : Z → string) (shell : Node → option string).

Lemma foldl_treeWalk (l : list Node) (d : nat) (out : list string) :
  Forall (λ n, ∀ d out, treeWalk fmtInt shell n (d, out)
                        = (d, out ++ ((λ dn, printNode fmtInt shell dn.1 dn.2)
                                        <$> levels d n))) l →
  foldl (λ st n, treeWalk fmtInt shell n st) (d, out) l
  = (d, out ++ ((λ dn, printNode fmtInt shell dn.1 dn.2)
                  <$> concat (levels d <$> l))).
Proof.
  intros Hl. revert out. induction Hl as [|n l Hn _ IH]; intros out.
  - by rewrite app_nil_r.
  - rewrite fmap_cons. cbn [foldl concat].
    by rewrite Hn, IH, fmap_app, app_assoc.
Qed.

Lemma treeWalk_levels (node : Node) (d : nat) (out : list string) :
  treeWalk fmtInt shell node (d, out)
  = (d, out ++ ((λ dn, printNode fmtInt shell dn.1 dn.2) <$> levels d node)).
Proof.
  revert d out. induction node as [a i name t app v f ns fs IHns IHfs] using Node_ind.
  intros d out. cbn [treeWalk levels n_Nodes n_FloatingNodes fst snd].
  rewrite (foldl_treeWalk fs (S d)) by done.
  rewrite (foldl_treeWalk ns (S d)) by done.
  cbn [fst snd Nat.pred]. f_equal.
  rewrite fmap_cons, fmap_app. cbn [fst snd].
  by rewrite <-!app_assoc.
Qed.

Lemma levels_preorder (node : Node) (d : nat) : (levels d node).*2 = preorder node.
Proof.
  revert d. induction node as [a i name t app v f ns fs IHns IHfs] using Node_ind.
  intros d. cbn [levels preorder n_Nodes n_FloatingNodes].
  rewrite fmap_cons, fmap_app. cbn [snd]. f_equal.
  assert (H : ∀ l : list Node,
             Forall (λ n, ∀ d, (levels d n).*2 = preorder n) l →
             (concat (levels (S d) <$> l)).*2 = concat (preorder <$> l)).
  { induction 1 as [|n l Hn _ IH]; [done|].
    rewrite !fmap_cons. cbn [concat]. by rewrite fmap_app, Hn, IH. }
  by rewrite !H.
Qed.

(** X13. [cmdTree] prints one line per node, in the order of [walkTree],
    each at the depth of its node: the walk from depth [d] appends the
    lines of the nodes with their levels and leaves [depth] at [d]. *)
Theorem cmdTree_prints_the_tree_by_levels (root : Node) (d : nat) (out : list string) :
  treeWalk fmtInt shell root (d, out)
  = (d, out ++ ((λ dn, printNode fmtInt shell dn.1 dn.2) <$> levels d root)) ∧
  cmdTree fmtInt shell root
  = (λ dn, printNode fmtInt shell dn.1 dn.2) <$> levels 0 root ∧
  (levels 0 root).*2 = preorder root ∧
  length (cmdTree fmtInt shell root) = length (preorder root).
Proof.
  split_and!.
  - apply treeWalk_levels.
  - unfold cmdTree. by rewrite treeWalk_levels.
  - apply levels_preorder.
  - unfold cmdTree. rewrite treeWalk_levels. cbn [snd app].
    by rewrite length_fmap, <-(levels_preorder root 0), length_fmap.
Qed.
End cmdTree.

(** ** [cmdAppNext] never stays on the focused window *)

(** X14. When the focused node has an application id and is a node of the
    tree, whose nodes are distinct objects, [cmdAppNext] never ends with
    the message of an inconsistent tree, and the node it focuses is a
    match other than the focused node. *)
Theorem cmdAppNext_moves_to_another_window run root f a :
  n_AppID f = Some a → f ∈ preorder root → NoDup (n_addr <$> preorder root) →
  cmdAppNext run root (Some f) ≠ Fatal "Inconsistent tree?" ∧
  ∀ id, cmdAppNext run root (Some f) = Focused id →
        ∃ n, n ∈ treeSelect root (sameApp a) ∧ n_ID n = id ∧ n_addr n ≠ n_addr f.
Proof.
  intros Ha Hf Hnd. unfold cmdAppNext. rewrite Ha.
  set (matches := treeSelect root (sameApp a)).
  assert (Hin : f ∈ matches).
  { unfold matches. rewrite treeSelect_filter. apply list_elem_of_filter.
    split; [|done]. apply Is_true_true. by apply sameApp_true. }
  apply list_elem_of_lookup in Hin as [i Hi].
  pose proof (lookup_lt_Some _ _ _ Hi) as Hilt.
  destruct (Z.of_nat (length matches) <? 2) eqn:Hlen; [done|].
  apply Z.ltb_ge in Hlen.
  rewrite (IndexFunc_first n_addr matches i f) by (by try apply treeSelect_NoDup_addr).
  rewrite (proj2 (Z.ltb_ge _ _)) by lia.
  rewrite Z.rem_mod_nonneg by lia.
  replace (Z.of_nat i + 1) with (Z.of_nat (i + 1)) by lia.
  rewrite <-Nat2Z.inj_mod, Nat2Z.id.
  set (j := ((i + 1) `mod` length matches)%nat).
  assert (Hj : (j < length matches)%nat) by (apply Nat.mod_upper_bound; lia).
  assert (Hji : j ≠ i).
  { unfold j. destruct (decide (i + 1 < length matches)%nat) as [Hlt|Hge].
    - rewrite Nat.mod_small by done. lia.
    - assert (i + 1 = length matches)%nat as -> by lia.
      rewrite Nat.Div0.mod_same. lia. }
  destruct (lookup_lt_is_Some_2 matches j Hj) as [n Hn]. rewrite Hn.
  unfold focusCon. split; [by destruct (run (n_ID n))|].
  intros id Hid. destruct (run (n_ID n)); [|done]. injection Hid as <-.
  exists n. split_and!; [by eapply list_elem_of_lookup_2|done|].
  intros Heq. apply Hji.
  apply (NoDup_lookup (n_addr <$> matches) j i (n_addr f)
           (treeSelect_NoDup_addr root (sameApp a) Hnd)).
  - by rewrite list_lookup_fmap, Hn; simpl; rewrite Heq.
  - by rewrite list_lookup_fmap, Hi.
Qed.

(** ** The comparison of [focusExisting] on matches without a [Visible] flag *)

(** X9. The comparison of [focusExisting] dereferences [Visible]: the sort
    (the insertion sort of the library) panics exactly when there are at
    least two matches and one of them has no [Visible] flag, and
    otherwise returns the stable sorted list; so [focusExisting] ends in
    the nil dereference in exactly that case, and a single match is
    focused whatever its flag. *)
Theorem focusExisting_panics_on_a_match_without_Visible run root idx pick :
  let matches := treeSelect root pick in
  SortStableFunc matches (less idx)
  = (if decide ((2 ≤ length matches)%nat ∧ Exists noVisible matches)
     then Panic nilDeref
     else Ok (insertionSort_pure (lessb idx) matches [])) ∧
  (focusExisting run root idx pick = Panicked nilDeref
   ↔ (2 ≤ length matches)%nat ∧ Exists noVisible matches) ∧
  ∀ n, matches = [n] → focusExisting run root idx pick = focusCon run (n_ID n).
Proof.
  intros matches. split; [apply SortStableFunc_cases|].
  unfold focusExisting. fold matches. rewrite SortStableFunc_cases. split.
  - case_bool_decide as Hlen.
    { split; [done|]. intros [? _]. lia. }
    case_decide as Hc; [done|]. split; [|done].
    pose proof (insertionSort_pure_perm (lessb idx) matches []) as Hp.
    destruct (insertionSort_pure (lessb idx) matches []) as [|n sorted]; simpl.
    + rewrite reverse_nil, app_nil_l in Hp.
      apply Permutation_nil in Hp. by rewrite Hp in Hlen.
    + unfold focusCon. by destruct (run (n_ID n)).
  - intros n ->. rewrite bool_decide_eq_false_2 by done.
    rewrite decide_False by (simpl; lia). done.
Qed.

(** ** [cmdFocus] *)

Lemma insertBack_Permutation {A} (lessM : A → A → res bool) x rp r :
  insertBack lessM x rp = Ok r → r ≡ₚ x :: rp.
Proof.
  revert r. induction rp as [|y rp IH]; intros r; cbn [insertBack].
  { by intros [= <-]. }
  destruct (lessM x y) as [[]|]; cbn [mbind res_bind]; [|by intros [= <-]|done].
  destruct (insertBack lessM x rp) as [r'|]; cbn [mbind res_bind]; [|done].
  intros [= <-]. rewrite (IH r' eq_refl). apply Permutation_swap.
Qed.

Lemma insertionSort_Permutation {A} (lessM : A → A → res bool) data rp r :
  insertionSort lessM data rp = Ok r → r ≡ₚ rp ++ data.
Proof.
  revert rp r. induction data as [|x data IH]; intros rp r; cbn [insertionSort].
  { intros [= <-]. by rewrite app_nil_r, reverse_Permutation. }
  destruct (insertBack lessM x rp) as [rp'|] eqn:Hins; cbn [mbind res_bind]; [|done].
  intros Hr%IH. rewrite Hr, (insertBack_Permutation _ _ _ _ Hins).
  apply Permutation_middle.
Qed.

Lemma focusExisting_Focused run root idx fn id :
  focusExisting run root idx fn = Focused id →
  ∃ n, n ∈ treeSelect root fn ∧ n_ID n = id ∧ run id = true.
Proof.
  unfold focusExisting. case_bool_decide; [done|].
  destruct (SortStableFunc _ _) as [sorted|] eqn:Hsort; [|done].
  apply insertionSort_Permutation in Hsort. rewrite app_nil_l in Hsort.
  destruct sorted as [|n sorted]; [done|]. simpl. unfold focusCon.
  destruct (run (n_ID n)) eqn:Hrun; [|done]. intros [= <-].
  exists n. split_and!; [|done..]. rewrite <-Hsort. left.
Qed.

Lemma focusExisting_Nothing run root idx fn :
  focusExisting run root idx fn = Nothing ↔ treeSelect root fn = [].
Proof.
  unfold focusExisting. case_bool_decide as Hlen.
  { split; [|done]. intros _. by apply length_zero_iff_nil. }
  split; [|intros Hnil; by rewrite Hnil in Hlen].
  destruct (SortStableFunc _ _) as [sorted|] eqn:Hsort; [|done].
  destruct sorted as [|n sorted]; [done|]. simpl. unfold focusCon.
  by destruct (run (n_ID n)).
Qed.

(** X10. When [cmdFocus] focuses a window, one of the flags was given and
    the daemon answered; and the window is either a node of the tree of
    type con or floating_con whose name matches the compiled [-title]
    pattern and whose application id is the [-appid] flag (each where the
    flag is given), or [-launch] was given, no node of the tree matched,
    the command started, and the id is one that the tree before the
    launch did not have and that a tree polled within the deadline has. *)
Theorem cmdFocus_focuses_a_match_or_a_new_window
    compile daemon run root root0 started ticks title appID launchCmd id :
  cmdFocus compile daemon run root root0 started ticks title appID launchCmd
  = Some (Focused id) →
  (title ≠ "" ∨ appID ≠ "") ∧ (∃ mruList, daemon = inr mruList) ∧
  ((∃ n, n ∈ preorder root ∧ n_ID n = id ∧
         (n_Type n = NodeCon ∨ n_Type n = NodeFloatingCon) ∧
         (title ≠ "" → ∃ re, compile title = Some re ∧ re (n_Name n) = true) ∧
         (appID ≠ "" → n_AppID n = Some appID))
   ∨ (launchCmd ≠ "" ∧ started = true ∧ 0 ≤ id ∧
      (id ∉ n_ID <$> preorder root0) ∧
      (∀ n, n ∈ preorder root →
            n_Type n = NodeCon ∨ n_Type n = NodeFloatingCon →
            (title ≠ "" → ∃ re, compile title = Some re ∧ re (n_Name n) = true) →
            (appID ≠ "" → n_AppID n = Some appID) → False) ∧
      ∃ since tree n, (since, tree) ∈ ticks ∧ since ≤ deadline ∧
                      n ∈ preorder tree ∧ n_ID n = id)).
Proof.
  unfold cmdFocus. case_decide as Hflags; [done|].
  destruct (if decide (title ≠ "") then _ else _) as [titleRE|] eqn:HRE; [|done].
  destruct daemon as [msg|mruList]; [done|].
  assert (Hre : ∀ n, (∀ re, titleRE = Some re → re (n_Name n) = true)
                     ↔ (title ≠ "" → ∃ re, compile title = Some re ∧ re (n_Name n) = true)).
  { intros n. case_decide as Ht.
    - destruct (compile title) as [re|]; [|done]. injection HRE as <-. naive_solver.
    - injection HRE as <-. naive_solver. }
  intros Hrun. split; [|split; [by eexists|]].
  { destruct (decide (title = "")), (decide (appID = "")); tauto. }
  destruct (focusExisting run root (mkIndex mruList) (pick titleRE appID))
    as [id'| | | |] eqn:Hfoc; try done.
  - left. injection Hrun as ->.
    apply focusExisting_Focused in Hfoc as (n & Hn & Hid & _).
    rewrite treeSelect_filter in Hn. apply list_elem_of_filter in Hn as [Hp Hn].
    apply Is_true_true, pick_true in Hp as (Hty & Htitle & Happ).
    exists n. split_and!; [done..| |done]. by apply Hre.
  - right. apply focusExisting_Nothing in Hfoc.
    case_decide as Hl; [done|]. unfold launchAndFocus in Hrun.
    destruct started; [|done].
    apply poll_Focused in Hrun as (? & Hnew & _ & ?).
    rewrite collectIDs_preorder, elem_of_list_to_set in Hnew.
    split_and!; [done..| |done].
    intros n Hn Hty Htitle Happ.
    assert (Hin : n ∈ treeSelect root (pick titleRE appID)).
    { rewrite treeSelect_filter. apply list_elem_of_filter. split; [|done].
      apply Is_true_true, pick_true. split_and!; [done| |done]. by apply Hre. }
    rewrite Hfoc in Hin. by apply elem_of_nil in Hin.
Qed.

(** ** The daemon's answer in the commands *)

Lemma calls_of_app es1 es2 : calls_of (es1 ++ es2) = calls_of es1 ++ calls_of es2.
Proof. unfold calls_of. apply bind_app. Qed.

Lemma calls_of_unhandled es : Forall (λ e, ¬ handled e) es → calls_of es = [].
Proof.
  induction 1 as [|e es He _ IH]; [done|].
  unfold calls_of in *. rewrite bind_cons, IH, app_nil_r.
  unfold event_call, handled in *.
  rewrite decide_False by tauto. by rewrite decide_False by tauto.
Qed.

Lemma calls_of_focus e :
  Change e = WindowFocus →
  calls_of [e] = [BringFront (n_ID (Container e)) (focusAppID (Container e))].
Proof. intros He. unfold calls_of, event_call. simpl. by rewrite decide_True. Qed.

(** X7. Over an answer of the daemon, the index [idToMRUIdx] that
    [cmdFocus] builds maps the id of each listed window to its position,
    has an entry exactly for the windows that were focused and not closed
    since, and every entry is the position of a window with that id. *)
Theorem cmdFocus_index_of_the_daemon_answer verbose es ws :
  query_after verbose es = Ok ws →
  (∀ i w, ws !! i = Some w → mkIndex ws !! ID w = Some i) ∧
  (∀ j, is_Some (mkIndex ws !! j) ↔ live (calls_of es) j) ∧
  (∀ j i, mkIndex ws !! j = Some i → ∃ w, ws !! i = Some w ∧ ID w = j).
Proof.
  intros [-> Hnd]%query_after_calls.
  assert (Hdom : ∀ j, is_Some (mkIndex (abs_calls (calls_of es)) !! j)
                      ↔ j ∈ ID <$> abs_calls (calls_of es)).
  { intros j. split.
    - intros Hsome. destruct (decide (j ∈ ID <$> abs_calls (calls_of es))); [done|].
      rewrite mkIndex_absent in Hsome by done. by destruct Hsome.
    - intros (w & -> & [i Hi]%list_elem_of_lookup)%list_elem_of_fmap.
      rewrite (mkIndex_lookup _ i w) by done. by eexists. }
  split_and!.
  - intros i w Hi. by apply mkIndex_lookup.
  - intros j. by rewrite Hdom, abs_calls_live.
  - intros j i Hj.
    assert (Hin : j ∈ ID <$> abs_calls (calls_of es)) by (apply Hdom; by eexists).
    apply list_elem_of_fmap in Hin as (w & -> & [i' Hi']%list_elem_of_lookup).
    rewrite (mkIndex_lookup _ i' w) in Hj by done. injection Hj as <-. by exists w.
Qed.

(** X8. [prev] goes back to the window focused before the current one:
    when the last two focus events were for the windows [a] and then [b],
    with no focus or close event since, and [b] has the focus, [cmdPrev]
    on the daemon's answer focuses [a]. *)
Theorem cmdPrev_returns_to_the_window_focused_before
    verbose run es ea mid eb rest ws f :
  Change ea = WindowFocus → Change eb = WindowFocus →
  n_ID (Container ea) ≠ n_ID (Container eb) →
  Forall (λ e, ¬ handled e) mid → Forall (λ e, ¬ handled e) rest →
  query_after verbose (es ++ ea :: mid ++ eb :: rest) = Ok ws →
  n_ID f = n_ID (Container eb) →
  cmdPrev run ws (Some f) = focusCon run (n_ID (Container ea)).
Proof.
  intros Ha Hb Hne Hmid Hrest [-> _]%query_after_calls Hf.
  rewrite (cons_middle ea es), (cons_middle eb mid), !calls_of_app.
  rewrite (calls_of_unhandled mid), (calls_of_unhandled rest) by done.
  rewrite (calls_of_focus ea), (calls_of_focus eb) by done.
  rewrite app_nil_l, app_nil_r, app_assoc, !abs_calls_snoc.
  cbn [abs_call]. unfold others at 1. rewrite filter_cons_True by done.
  unfold cmdPrev. cbn [prevLoop ID]. rewrite Hf.
  rewrite bool_decide_eq_true_2 by done. by rewrite bool_decide_eq_false_2.
Qed.

End CliFacts.

(** * The theorems at concrete inputs *)

Module Examples.
Import MRU Sway Daemon Tree Lock MRUFacts DaemonFacts TreeFacts LockFacts.

(** C1: a snapshot that is returned, and one that is not. *)
Lemma snapshot_ids_unless_panic_example :
  snapshot_after [BringFront 1 "foot"; BringFront 2 "vim"; Delete 1]
  = Ok [ListWindow 2 "vim"] ∧
  live [BringFront 1 "foot"; BringFront 2 "vim"; Delete 1] 2 ∧
  7 ∈ Z.of_nat <$> seq 1 102 ∧ 7 ≠ 5 ∧
  live (focus_each 102 ++ [Delete 5]) 7.
Proof.
  assert (Hs : snapshot_after [BringFront 1 "foot"; BringFront 2 "vim"; Delete 1]
               = Ok [ListWindow 2 "vim"]) by (by vm_compute).
  assert (H7 : 7 ∈ Z.of_nat <$> seq 1 102).
  { apply (list_elem_of_fmap_2' Z.of_nat _ 7%nat); [|done].
    apply elem_of_seq. lia. }
  destruct snapshot_ids_unless_panic as (Hids & _ & Hlive).
  split_and!; [exact Hs| |exact H7|lia|apply Hlive; [exact H7|lia]].
  apply (proj2 (Hids _ _ Hs)). left.
Defined.

(** C2 on a list with the windows 1 and 2, window 1 at the head. *)
Lemma bringFront_moves_to_head_example :
  ∃ s s', after [BringFront 2 "foot"; BringFront 1 "foot"] = Ok s ∧
          contents s = [ListWindow 1 "foot"; ListWindow 2 "foot"] ∧
          bringFront 1 "vim" s = Ok (tt, s') ∧
          contents s' = [ListWindow 1 "vim"; ListWindow 2 "foot"].
Proof.
  destruct (bringFront_moves_to_head [BringFront 2 "foot"; BringFront 1 "foot"] 1 "vim")
    as (s & s' & p & e & Hs & Hrun & _ & _ & _ & _ & _ & _ & Hhead).
  exists s, s'.
  assert (Hc : contents s = [ListWindow 1 "foot"; ListWindow 2 "foot"]).
  { vm_compute in Hs. injection Hs as <-. by vm_compute. }
  split_and!; [exact Hs|exact Hc|exact Hrun|].
  exact (Hhead "foot" [ListWindow 2 "foot"] Hc).
Defined.

(** C7: [delete 3] on a list with the windows 1 and 2. *)
Lemma delete_then_bringFront_example :
  ∃ s, after [BringFront 1 "foot"; BringFront 2 "vim"] = Ok s ∧
       (3 ∉ ID <$> contents s) ∧ MRU.delete 3 s = Ok (tt, s).
Proof.
  destruct (delete_then_bringFront [BringFront 1 "foot"; BringFront 2 "vim"] 3 "foot")
    as (s & s1 & s2 & s0 & s3 & p & Hs & Hunknown & _).
  exists s.
  assert (Hc : 3 ∉ ID <$> contents s).
  { vm_compute in Hs. injection Hs as <-. vm_compute.
    by intros [?|[?|?]%elem_of_cons]%elem_of_cons; [..|by apply elem_of_nil in H]. }
  split_and!; [exact Hs|exact Hc|exact (Hunknown Hc)].
Defined.

(** C4 on the matches of the claim, and on a tree with a split container
    for [focus -title] with a pattern that matches every name. *)
Lemma focusExisting_ranking_unless_panic_example :
  (∃ sorted,
     SortStableFunc example_matches (less (mkIndex example_mruList)) = Ok sorted ∧
     n_ID <$> sorted = [12; 11; 10]) ∧
  n_ID <$> treeSelect split_tree (pick (Some (λ _, true)) "") = [2; 3; 4] ∧
  focusExisting (λ _, true) split_tree (mkIndex example_mruList)
    (pick (Some (λ _, true)) "")
  = Panicked nilDeref.
Proof.
  split_and!.
  - destruct (focusExisting_ranking_unless_panic (mkIndex example_mruList) example_matches)
      as (_ & Hreturns & _).
    destruct Hreturns as (sorted & Hsort); [repeat constructor; by eexists|].
    exists sorted. split; [exact Hsort|].
    vm_compute in Hsort. injection Hsort as <-. reflexivity.
  - reflexivity.
  - destruct (focusExisting_ranking_unless_panic (mkIndex example_mruList)
                (treeSelect split_tree (pick (Some (λ _, true)) "")))
      as (_ & _ & Hpanic).
    apply Hpanic; [vm_compute; lia| |reflexivity].
    apply Exists_exists. exists split_container. split; [|reflexivity].
    apply list_elem_of_lookup. by exists 0%nat.
Defined.

(** C5: with the terminal 4 focused, [cmdAppNext] wraps around to the
    floating terminal 5; with the browser focused it does nothing. *)
Lemma cmdAppNext_focuses_next_match_example :
  cmdAppNext (λ _, true) example_tree (Some (example_app 4 NodeCon "foot" true))
  = Focused 5 ∧
  cmdAppNext (λ _, true) example_tree (Some (example_app 3 NodeCon "firefox" false))
  = Nothing.
Proof.
  split.
  - destruct (proj2 (cmdAppNext_focuses_next_match (λ _, true) example_tree
                       (example_app 4 NodeCon "foot" true) "foot" eq_refl) 2%nat)
      as (n & Hn & Hrun).
    + vm_compute. lia.
    + apply (bool_decide_unpack _). by vm_compute.
    + reflexivity.
    + vm_compute in Hn. injection Hn as <-. exact Hrun.
  - apply (proj1 (cmdAppNext_focuses_next_match (λ _, true) example_tree
                    (example_app 3 NodeCon "firefox" false) "firefox" eq_refl)).
    vm_compute. lia.
Defined.

(** C6: with window 1 focused and the MRU list [1; 2; 3], [cmdPrev]
    focuses window 2; with the MRU list [1] it only logs. *)
Lemma cmdPrev_focuses_first_other_example :
  cmdPrev (λ _, true)
    [ListWindow 1 "foot"; ListWindow 2 "vim"; ListWindow 3 "foot"]
    (Some (example_app 1 NodeCon "foot" true)) = Focused 2 ∧
  cmdPrev (λ _, true) [ListWindow 1 "foot"] (Some (example_app 1 NodeCon "foot" true))
  = Logged "No other window to focus".
Proof.
  split.
  - apply (proj1 (cmdPrev_focuses_first_other (λ _, true) _
                    (example_app 1 NodeCon "foot" true))
             [ListWindow 1 "foot"] (ListWindow 2 "vim") [ListWindow 3 "foot"]).
    + reflexivity.
    + by repeat constructor.
    + by vm_compute.
  - apply (proj2 (cmdPrev_focuses_first_other (λ _, true) _
                    (example_app 1 NodeCon "foot" true))).
    by repeat constructor.
Defined.


(** C9: the lock file is held by a running daemon. *)
Lemma cmdDaemon_lock_fails_at_once_example :
  cmdDaemon_lock example_Join
    (System (λ _, true) {[example_lock := Exclusive]}) "/run/user/1000"
  = Lock.Fatal "Lockfile locked (is another instance running?)" ∧
  cmdDaemon_lock example_Join (System (λ _, true) ∅) "/run/user/1000"
  = Locked example_lock.
Proof.
  split.
  - apply (proj2 (cmdDaemon_lock_fails_at_once example_Join
                    (System (λ _, true) {[example_lock := Exclusive]}) "/run/user/1000"));
      [done|done|].
    by exists Exclusive.
  - by apply (proj2 (cmdDaemon_lock_fails_at_once example_Join
                       (System (λ _, true) ∅) "/run/user/1000")).
Defined.

(** C10: window 7 has no application id. *)
Lemma unnamed_window_listed_with_question_mark_example :
  query_after false (example_event WindowFocus 7 None :: example_events)
  = Ok [ListWindow 8 "foot"; ListWindow 7 "?"] ∧
  ListWindow 7 "?" ∈ [ListWindow 8 "foot"; ListWindow 7 "?"].
Proof.
  assert (Hq : query_after false ([] ++ example_event WindowFocus 7 None :: example_events)
               = Ok [ListWindow 8 "foot"; ListWindow 7 "?"]) by (by vm_compute).
  split; [exact Hq|].
  apply (unnamed_window_listed_with_question_mark false []
           (example_event WindowFocus 7 None) example_events _ eq_refl
           (or_introl eq_refl) eq_refl Hq).
Defined.

End Examples.

(** * More theorems at concrete inputs *)

Module MoreExamples.
Import MRU Sway Daemon Tree Links Service Cli.
Import MRUFacts DaemonFacts TreeFacts LinksFacts ServiceFacts CliFacts.

(** X1: window 1 was focused, then window 2. *)
Lemma list_is_in_order_of_last_focus_example :
  ∃ cs1 cs2 cs3,
    [BringFront 1 "foot"; BringFront 2 "vim"]
    = cs1 ++ BringFront 1 "foot" :: cs2 ++ BringFront 2 "vim" :: cs3 ∧
    Forall (λ c, call_id c ≠ 1) cs2.
Proof.
  destruct (list_is_in_order_of_last_focus [BringFront 1 "foot"; BringFront 2 "vim"])
    as (s & Hs & Horder).
  destruct (Horder (ListWindow 2 "vim") (ListWindow 1 "foot"))
    as (cs1 & cs2 & cs3 & Hcs & H2 & _).
  - vm_compute in Hs. injection Hs as <-. by vm_compute.
  - by exists cs1, cs2, cs3.
Defined.

(** X6: the focus event for the 101st window, with [-v]. *)
Lemma logging_panics_beyond_100_windows_example :
  list_after true (focus_events 100 ++ [example_event WindowFocus 101 (Some "foot")])
  = Panic "boom".
Proof.
  destruct (list_after_quiet
              (focus_events 100 ++ [example_event WindowFocus 101 (Some "foot")]))
    as (s & ps & Hq & _ & _ & Hc).
  apply (proj2 (proj2 logging_panics_beyond_100_windows) _ _ s); [by left|exact Hq|].
  rewrite Hc. vm_compute. lia.
Defined.

(** X7: the index over the answer to a query after the example events. *)
Lemma cmdFocus_index_of_the_daemon_answer_example :
  query_after false example_events = Ok [ListWindow 8 "foot"] ∧
  mkIndex [ListWindow 8 "foot"] !! 8 = Some 0%nat.
Proof.
  assert (Hq : query_after false example_events = Ok [ListWindow 8 "foot"])
    by (by vm_compute).
  split; [exact Hq|].
  exact (proj1 (cmdFocus_index_of_the_daemon_answer false example_events _ Hq)
           0%nat (ListWindow 8 "foot") eq_refl).
Defined.

(** X8: with window 8 focused after window 7, [prev] focuses window 7. *)
Lemma cmdPrev_returns_to_the_window_focused_before_example :
  query_after false example_focus_events
  = Ok [ListWindow 8 "foot"; ListWindow 7 "vim"] ∧
  cmdPrev (λ _, true) [ListWindow 8 "foot"; ListWindow 7 "vim"]
    (Some (Container (example_event WindowFocus 8 (Some "foot"))))
  = Focused 7.
Proof.
  assert (Hq : query_after false example_focus_events
               = Ok [ListWindow 8 "foot"; ListWindow 7 "vim"]) by (by vm_compute).
  split; [exact Hq|].
  apply (cmdPrev_returns_to_the_window_focused_before false (λ _, true) []
           (example_event WindowFocus 7 (Some "vim"))
           [example_event WindowTitle 7 None]
           (example_event WindowFocus 8 (Some "foot")) []);
    [reflexivity|reflexivity|by vm_compute| |constructor|exact Hq|reflexivity].
  repeat constructor. by intros [?|?].
Defined.

(** X10: [focus -appid foot] on the example tree focuses the floating
    terminal, the first match of the walk. *)
Lemma cmdFocus_focuses_a_match_or_a_new_window_example :
  cmdFocus (λ _, None) (inr example_mruList) (λ _, true) example_tree example_tree
    true [] "" "foot" ""
  = Some (Focused 5) ∧
  ∃ n, n ∈ preorder example_tree ∧ n_ID n = 5 ∧ n_AppID n = Some "foot".
Proof.
  assert (Hrun : cmdFocus (λ _, None) (inr example_mruList) (λ _, true) example_tree
                   example_tree true [] "" "foot" "" = Some (Focused 5))
    by (by vm_compute).
  split; [exact Hrun|].
  destruct (cmdFocus_focuses_a_match_or_a_new_window _ _ _ _ _ _ _ _ _ _ _ Hrun)
    as (_ & _ & [(n & Hn & Hid & _ & _ & Happ)|(Hlaunch & _)]).
  - exists n. split_and!; [exact Hn|exact Hid|by apply Happ].
  - by destruct Hlaunch.
Defined.

(** X11: the windows 4 and 5 are new, and 4 is the answer. *)
Lemma getNewID_is_the_least_new_id_example :
  Forall (λ n, 0 ≤ n_ID n) (preorder example_tree) ∧
  getNewID {[1; 2; 3]} example_tree = 4 ∧
  ∀ n, n ∈ preorder example_tree → n_ID n ∉ ({[1; 2; 3]} : gset Z) → 4 ≤ n_ID n.
Proof.
  assert (Hids : Forall (λ n, 0 ≤ n_ID n) (preorder example_tree))
    by (repeat constructor; by vm_compute).
  assert (Hnew : getNewID {[1; 2; 3]} example_tree = 4) by (by vm_compute).
  split_and!; [exact Hids|exact Hnew|].
  destruct (getNewID_is_the_least_new_id {[1; 2; 3]} example_tree
              (proj1 (Forall_forall _ _) Hids)) as [[Hnone _]|(_ & _ & Hleast)].
  - rewrite Hnew in Hnone. discriminate Hnone.
  - by rewrite Hnew in Hleast.
Defined.

(** X12: the editor's window shows up at the second tick. *)
Lemma launchAndFocus_focuses_only_a_new_window_example :
  launchAndFocus (λ _, true) example_tree true example_ticks = Some (Focused 6) ∧
  (6 ∉ n_ID <$> preorder example_tree).
Proof.
  assert (Hrun : launchAndFocus (λ _, true) example_tree true example_ticks
                 = Some (Focused 6)) by (by vm_compute).
  split; [exact Hrun|].
  exact (proj1 (proj2 (proj2
           (launchAndFocus_focuses_only_a_new_window _ _ _ _ _ Hrun)))).
Defined.

(** X14: with the terminal 4 focused. *)
Lemma cmdAppNext_moves_to_another_window_example :
  NoDup (n_addr <$> preorder example_tree) ∧
  cmdAppNext (λ _, true) example_tree (Some (example_app 4 NodeCon "foot" true))
  ≠ Fatal "Inconsistent tree?".
Proof.
  assert (Hnd : NoDup (n_addr <$> preorder example_tree))
    by (apply (bool_decide_unpack _); by vm_compute).
  split; [exact Hnd|].
  apply (cmdAppNext_moves_to_another_window (λ _, true) example_tree
           (example_app 4 NodeCon "foot" true) "foot"); [reflexivity| |exact Hnd].
  apply list_elem_of_lookup. by exists 4%nat.
Defined.

(** X15: the error names the second reply. *)
Lemma runCommand_reports_the_first_failure_example :
  runCommand (Results example_replies) = Some (commandFailed 1 "bad") ∧
  ∃ k res, commandFailed 1 "bad" = commandFailed k (Error res) ∧
           example_replies !! k = Some res ∧ Success res = false.
Proof.
  split; [reflexivity|].
  destruct (proj2 (runCommand_reports_the_first_failure (Results example_replies))
              example_replies (commandFailed 1 "bad") eq_refl eq_refl)
    as (k & res & Herr & Hk & Hres & _).
  by exists k, res.
Defined.

End MoreExamples.
